(** * easytcp: routing, middleware dispatch and the accept loop

    A shallow embedding of [router/router.go] (package [router]) and of the
    accept loop of the [easytcp] server, with the properties of registration,
    middleware composition, dispatch and the two loops.

    Conventions of the embedding.
    - A Go function value is nilable: a handler or middleware value is an
      [option] of a Rocq function, [None] being Go's [nil].
    - Go functions have effects, may block for ever and may panic: they live
      in the monad [M W], a state monad over the world [W] whose outcomes are
      [Done], [Blocked] and [Panicked].
    - [sync.Map] is a finite map ([gmap]); message ids are Go [uint]s, which
      are only ever used as keys, so they are modelled by [N].
    - [session.Session] is an interface, the logger a foreign package: both
      are taken as operations over the world (classes [SessionOps], [Logger]).
    - A goroutine started by [go] joins a pool of pending goroutines, keyed by
      the number of the receive that spawned it; a scheduler picks what runs
      next.  A goroutine runs its body in one step.
    - In module [router] the global middlewares are a list. Module [slices]
      has them as Go has them, a slice of a backing array in a heap, with
      [handleReq] in two steps, its append and its reads, that the goroutines
      of other requests can come between. *)

From Stdlib Require Import NArith String List Lia.
From stdpp Require Import gmap strings list fin_maps pretty.

Set Default Proof Using "Type".

(** ** Effects: state, blocking, panics *)

Inductive Outcome (W A : Type) : Type :=
  | Done (a : A) (w : W)
  | Blocked
  | Panicked.
Arguments Done {W A} a w.
Arguments Blocked {W A}.
Arguments Panicked {W A}.

Definition M (W A : Type) : Type := W → Outcome W A.

Definition M_unit {W A} (a : A) : M W A := λ w, Done a w.

Definition M_then {W A B} (m : M W A) (f : A → M W B) : M W B :=
  λ w, match m w with
       | Done a w' => f a w'
       | Blocked => Blocked
       | Panicked => Panicked
       end.

(** A Go panic. *)
Definition panic {W A} : M W A := λ _, Panicked.

(** An effect that always returns. *)
Definition effect {W} (f : W → W) : M W unit := λ w, Done tt (f w).

Notation "x ⇐ m ;; k" := (M_then m (λ x, k))
  (at level 100, m at next level, right associativity, only parsing).

Module router.

(** ** Data of package [packet] and [session] used by the router *)

(** Go's [error], by its message. *)
Definition error := string.

Record Request := { Req_ID : N; Req_Data : list Byte.byte }.
Record Response := { Resp_ID : N; Resp_Data : list Byte.byte }.

(** What one receive [req, ok := <-s.RecvReq()] gives: a value (possibly the
    nil pointer) with [ok = true], the closed channel with [ok = false], or
    nothing, ever (the channel stays open and empty). *)
Inductive RecvResult :=
  | RecvItem (req : option Request)
  | RecvClosed
  | RecvBlocked.

(** The interface [session.Session]. [RecvReq s k] is the result of the
    [k]-th receive on the channel [s.RecvReq()]. *)
Class SessionOps (W Session : Type) := {
  ID : Session → string;
  RecvReq : Session → nat → RecvResult;
  SendResp : Session → Response → M W (option error);
}.

(** [r.log.WithField("sid", sid).Tracef(msg)]. *)
Class Logger (W : Type) := {
  Tracef : string → string → W → W;
}.

Section Router.
Context {W Session : Type} `{!SessionOps W Session} `{!Logger W}.

(** ** Handlers and middlewares *)

Definition handler_fn : Type :=
  Session → Request → M W (option Response * option error).

(** The type [HandlerFunc]: a function of a session and a request that
    returns a response pointer and an error; a nilable function value. *)
Definition HandlerFunc : Type := option handler_fn.

(** The type [MiddlewareFunc]: a function from the next handler to a
    handler; nilable. *)
Definition MiddlewareFunc : Type := option (HandlerFunc → M W HandlerFunc).

(** Calling a function value panics on nil. *)
Definition call_handler (h : HandlerFunc) (s : Session) (req : Request)
  : M W (option Response * option error) :=
  match h with
  | Some f => f s req
  | None => panic
  end.

Definition call_middleware (m : MiddlewareFunc) (next : HandlerFunc)
  : M W HandlerFunc :=
  match m with
  | Some f => f next
  | None => panic
  end.

Definition defaultHandler : HandlerFunc :=
  Some (λ _ _, M_unit (None, None)).

(** ** The router *)

Record Router := {
  handlerMapper : gmap N HandlerFunc;
  middlewaresMapper : gmap N (list MiddlewareFunc);
  globalMiddlewares : list MiddlewareFunc;
}.

Definition New : Router :=
  {| handlerMapper := ∅; middlewaresMapper := ∅; globalMiddlewares := [] |}.

(** The loop [for i := len(middles) - 1; i >= 0; i--] of [wrapHandlers]:
    [n] is [i + 1]. *)
Fixpoint wrap_from (middles : list MiddlewareFunc) (n : nat)
    (wrapped : HandlerFunc) : M W HandlerFunc :=
  match n with
  | 0 => M_unit wrapped
  | S i =>
      match middles !! i with
      | Some m => wrapped' ⇐ call_middleware m wrapped ;; wrap_from middles i wrapped'
      | None => panic
      end
  end.

Definition wrapHandlers (handler : HandlerFunc) (middles : list MiddlewareFunc)
  : M W HandlerFunc :=
  let handler := match handler with None => defaultHandler | Some _ => handler end in
  wrap_from middles (length middles) handler.

(** The handler and the middlewares [handleReq] looks up for an id. The ids
    of requests are [uint]s, as the keys [Register] stores under.
    [append(middles, v...)] is here the list of the elements of [middles]
    followed by those of [v]: what [wrapHandlers] reads when no other
    dispatch comes between the append and the reads. Module [slices] has the
    append on the backing array that the goroutines share. *)
Definition handler_of (r : Router) (id : N) : HandlerFunc :=
  match handlerMapper r !! id with
  | Some v => v
  | None => None
  end.

Definition middles_of (r : Router) (id : N) : list MiddlewareFunc :=
  match middlewaresMapper r !! id with
  | Some v => globalMiddlewares r ++ v
  | None => globalMiddlewares r
  end.

(** What [handleReq] does with the result of the handlers stack. *)
Definition reply (s : Session) (res : option Response * option error)
  : M W (option error) :=
  let (resp, err) := res in
  match err with
  | Some err => M_unit (Some ("handler err: " +:+ err))
  | None =>
      match resp with
      | None => M_unit None
      | Some resp =>
          err ⇐ SendResp s resp ;;
          match err with
          | Some err => M_unit (Some ("session send response err: " +:+ err))
          | None => M_unit None
          end
      end
  end.

Definition handleReq (r : Router) (s : Session) (req : Request)
  : M W (option error) :=
  let handler := handler_of r (Req_ID req) in
  let middles := middles_of r (Req_ID req) in
  wrapped ⇐ wrapHandlers handler middles ;;
  res ⇐ call_handler wrapped s req ;;
  reply s res.

(** The first half of [handleReq]: the handlers stack is built and called. *)
Definition chain (r : Router) (s : Session) (req : Request)
  : M W (option Response * option error) :=
  wrapped ⇐ wrapHandlers (handler_of r (Req_ID req)) (middles_of r (Req_ID req)) ;;
  call_handler wrapped s req.

(** The loop [for _, mm := range m] of [Register], which keeps the non-nil
    middlewares. *)
Definition keep_non_nil (acc : list MiddlewareFunc) (m : list MiddlewareFunc)
  : list MiddlewareFunc :=
  foldl (λ ms mm, match mm with Some _ => ms ++ [mm] | None => ms end) acc m.

Definition Register (id : N) (h : HandlerFunc) (m : list MiddlewareFunc)
    (r : Router) : Router :=
  let hm :=
    match h with
    | Some _ => <[id := h]> (handlerMapper r)
    | None => handlerMapper r
    end in
  let mm :=
    match m with
    | [] => middlewaresMapper r
    | _ :: _ =>
        let ms := keep_non_nil [] m in
        match ms with
        | [] => middlewaresMapper r
        | _ :: _ => <[id := ms]> (middlewaresMapper r)
        end
    end in
  {| handlerMapper := hm; middlewaresMapper := mm;
     globalMiddlewares := globalMiddlewares r |}.

Definition RegisterMiddleware (m : list MiddlewareFunc) (r : Router) : Router :=
  {| handlerMapper := handlerMapper r;
     middlewaresMapper := middlewaresMapper r;
     globalMiddlewares :=
       match m with
       | [] => globalMiddlewares r
       | _ :: _ => keep_non_nil (globalMiddlewares r) m
       end |}.

(** ** The dispatch loop and its goroutines *)

(** Where the loop of [Loop] stands: before its [k]-th receive, after its
    [break], or dead because a goroutine of the process panicked. *)
Inductive LoopPC :=
  | At (k : nat)
  | Exited
  | Crashed.

(** The loop, the goroutines it started that have not run yet (each one is
    the closure [func() { r.handleReq(s, req) ... }] for its [req]), and the
    world. *)
Record Config := {
  pc : LoopPC;
  pool : gmap nat Request;
  world : W;
}.

Definition start (w : W) : Config := {| pc := At 0; pool := ∅; world := w |}.

(** The body of the goroutine [Loop] starts for a request. *)
Definition goroutine (r : Router) (s : Session) (req : Request) : M W unit :=
  err ⇐ handleReq r s req ;;
  match err with
  | Some err => effect (Tracef (ID s) ("handle request err: " +:+ err))
  | None => M_unit tt
  end.

(** One iteration of the [for] of [Loop], up to the next receive; after the
    [break] it includes the last trace. Not enabled when the receive never
    returns, or when the loop is over. *)
Definition Loop_iter (s : Session) (c : Config) : option Config :=
  match pc c with
  | At k =>
      match RecvReq s k with
      | RecvClosed =>
          Some {| pc := Exited; pool := pool c;
                  world := Tracef (ID s) "loop exit"
                             (Tracef (ID s) "loop stopped since session is closed"
                                (world c)) |}
      | RecvItem None =>
          Some {| pc := At (S k); pool := pool c; world := world c |}
      | RecvItem (Some req) =>
          Some {| pc := At (S k); pool := <[k := req]> (pool c); world := world c |}
      | RecvBlocked => None
      end
  | Exited | Crashed => None
  end.

(** [Loop] with the loop scheduled alone for [fuel] iterations: the
    goroutines it starts stay in the pool. *)
Fixpoint Loop (fuel : nat) (s : Session) (c : Config) : Config :=
  match fuel with
  | 0 => c
  | S fuel' =>
      match Loop_iter s c with
      | Some c' => Loop fuel' s c'
      | None => c
      end
  end.

(** The goroutine started by receive [k] runs, if it is pending and its body
    returns; a panic takes the process down. *)
Definition run_goroutine (r : Router) (s : Session) (k : nat) (c : Config)
  : option Config :=
  match pc c with
  | Crashed => None
  | _ =>
      match pool c !! k with
      | Some req =>
          match goroutine r s req (world c) with
          | Done _ w' => Some {| pc := pc c; pool := delete k (pool c); world := w' |}
          | Blocked => None
          | Panicked => Some {| pc := Crashed; pool := pool c; world := world c |}
          end
      | None => None
      end
  end.

(** What the scheduler picks. *)
Inductive Choice :=
  | TickLoop
  | RunTask (k : nat).

Definition exec (r : Router) (s : Session) (ch : Choice) (c : Config)
  : option Config :=
  match ch with
  | TickLoop => Loop_iter s c
  | RunTask k => run_goroutine r s k c
  end.

Fixpoint run (r : Router) (s : Session) (sched : list Choice) (c : Config)
  : option Config :=
  match sched with
  | [] => Some c
  | ch :: sched' =>
      match exec r s ch c with
      | Some c' => run r s sched' c'
      | None => None
      end
  end.

(** The inbound source of [s] closes: some receive finds the channel closed,
    all receives before it having returned a value. *)
Definition closes (s : Session) : Prop :=
  ∃ k, RecvReq s k = RecvClosed ∧ ∀ j, j < k → ∃ it, RecvReq s j = RecvItem it.


(** A goroutine parked in the pool under key [k]. *)
Definition park (k : nat) (req : Request) (c : Config) : Config :=
  {| pc := pc c; pool := <[k := req]> (pool c); world := world c |}.

(** The loop goes on after a goroutine has returned: it stands where it
    stood, and its next request is dispatched as ever. *)
Definition goes_on (r : Router) (s : Session) (req : Request) (w w' : W) : Prop :=
  ∀ c k,
    pc c ≠ Crashed → pool c !! k = Some req → world c = w →
    ∃ c',
      run_goroutine r s k c = Some c' ∧
      pc c' = pc c ∧ pool c' = delete k (pool c) ∧ world c' = w' ∧
      ∀ j req',
        pc c = At j → RecvReq s j = RecvItem (Some req') →
        Loop_iter s c' =
        Some {| pc := At (S j); pool := <[j := req']> (pool c'); world := w' |}.

(** The key [kx] is not in the pool and the loop will not use it again. *)
Definition spare (kx : nat) (c : Config) : Prop :=
  pool c !! kx = None ∧ ∀ k, pc c = At k → kx < k.

(** ** Routers that the API builds *)

Inductive reachable : Router → Prop :=
  | reach_New : reachable New
  | reach_Register id h m r :
      reachable r → reachable (Register id h m r)
  | reach_RegisterMiddleware m r :
      reachable r → reachable (RegisterMiddleware m r).

Definition non_nil (ms : list MiddlewareFunc) : Prop := Forall is_Some ms.

(** No list of the router holds a nil middleware. *)
Definition nil_free (r : Router) : Prop :=
  non_nil (globalMiddlewares r) ∧
  ∀ id ms, middlewaresMapper r !! id = Some ms → non_nil ms.

(** What the position of the loop says about the receives so far. *)
Definition loop_inv (s : Session) (c : Config) : Prop :=
  match pc c with
  | At k => ∀ j, j < k → ∃ it, RecvReq s j = RecvItem it
  | Exited => closes s
  | Crashed => True
  end.

(** ** The nested wrap of the specification *)

(** [nest [m1; ...; mn] h] is [m1(m2(...(mn(h))))], evaluated as Go does:
    the innermost call first. *)
Fixpoint nest (ms : list MiddlewareFunc) (h : HandlerFunc) : M W HandlerFunc :=
  match ms with
  | [] => M_unit h
  | m :: ms' => inner ⇐ nest ms' h ;; call_middleware m inner
  end.

(** The stored middleware list of an id, empty when there is none. *)
Definition route_middlewares (r : Router) (id : N) : list MiddlewareFunc :=
  default [] (middlewaresMapper r !! id).

(** The base handler of an id: the registered one, or the default one. *)
Definition base_handler (r : Router) (id : N) : HandlerFunc :=
  match handler_of r id with
  | Some f => Some f
  | None => defaultHandler
  end.

(** A middleware that leaves the marker [x] and calls the next handler. *)
Definition marking {T} (tick : T → W → W) (x : T) : MiddlewareFunc :=
  Some (λ next, M_unit (Some (λ s req, _ ⇐ effect (tick x) ;; call_handler next s req))).

(** ** What the loop has dispatched *)

(** The goroutine started by receive [j] among the first [n] receives: one
    for a request, none for a nil pointer. *)
Definition dispatched (s : Session) (n j : nat) : option Request :=
  if decide (j < n) then
    match RecvReq s j with
    | RecvItem (Some req) => Some req
    | _ => None
    end
  else None.

(** Every pending goroutine is the one of a request that a receive the loop
    has gone past returned. *)
Definition pool_sound (s : Session) (c : Config) : Prop :=
  ∀ j req,
    pool c !! j = Some req →
    RecvReq s j = RecvItem (Some req) ∧ ∀ k, pc c = At k → j < k.

(** A middleware that does not panic when it wraps. *)
Definition wraps_safely (m : MiddlewareFunc) : Prop :=
  ∃ f, m = Some f ∧ ∀ next w, f next w ≠ Panicked.

End Router.
End router.

Module easytcp.

(** ** The server and its accept loop *)

Definition error := string.

(** What one call of [s.listener.Accept()] gives: a connection, an error, or
    nothing, ever (no client connects). *)
Inductive AcceptResult (RawConn : Type) :=
  | Accepted (rawConn : RawConn)
  | AcceptFailed (err : error)
  | AcceptPending.
Arguments Accepted {RawConn} rawConn.
Arguments AcceptFailed {RawConn} err.
Arguments AcceptPending {RawConn}.

Section Server.
Context {W RawConn Connection : Type}.

(** [NewConnection(rawConn, s)], of a file that is not part of the sources
    at hand. *)
Variable NewConnection : RawConn → Connection.

(** The type [ConnectHookFunc], a nilable function of a connection. *)
Definition ConnectHookFunc : Type := option (Connection → M W unit).

(** The fields of [Server] the accept loop reads. [listener k] is the result
    of the [k]-th call of [Accept]. *)
Record Server := {
  Addr : string;
  Port : Z;
  listener : nat → AcceptResult RawConn;
  onConnectedFn : ConnectHookFunc;
  onDisconnectFn : ConnectHookFunc;
}.

Definition OnConnected (fn : ConnectHookFunc) (s : Server) : Server :=
  {| Addr := Addr s; Port := Port s; listener := listener s;
     onConnectedFn := fn; onDisconnectFn := onDisconnectFn s |}.

Definition OnDisconnect (fn : ConnectHookFunc) (s : Server) : Server :=
  {| Addr := Addr s; Port := Port s; listener := listener s;
     onConnectedFn := onConnectedFn s; onDisconnectFn := fn |}.

(** [if fn != nil { fn(conn) }]. *)
Definition call_hook (fn : ConnectHookFunc) (conn : Connection) : M W unit :=
  match fn with
  | Some f => f conn
  | None => M_unit tt
  end.

(** The goroutines the accept loop starts. *)
Inductive Goroutine :=
  | KeepReading (conn : Connection)
  | KeepWriting (conn : Connection).

(** Where [keepAccepting] stands: before its [k]-th call of [Accept]; at the
    receive [<-conn.Closed] for the [k]-th connection; returned; or dead by a
    panic of a hook. *)
Inductive AcceptPC :=
  | Accepting (k : nat)
  | AwaitClosed (k : nat) (conn : Connection)
  | Returned (k : nat) (err : error)
  | HookPanicked (k : nat).

(** The accept loop, the goroutines it started, the connections (by their
    number) whose closed signal has fired, and the world. *)
Record State := {
  apc : AcceptPC;
  started : list Goroutine;
  fired : gset nat;
  aworld : W;
}.

Definition boot (w : W) : State :=
  {| apc := Accepting 0; started := []; fired := ∅; aworld := w |}.

(** One stretch of [keepAccepting] between two blocking operations: from
    [Accept] to the receive on [conn.Closed], and from that receive to the
    next [Accept]. A stretch is one step: when a hook never returns the
    stretch is not made, and the state is the one before it, though the code
    has by then accepted the connection and started its two loops. *)
Definition keepAccepting_step (s : Server) (st : State) : option State :=
  match apc st with
  | Accepting k =>
      match listener s k with
      | AcceptFailed err =>
          Some {| apc := Returned k err; started := started st;
                  fired := fired st; aworld := aworld st |}
      | Accepted rawConn =>
          let conn := NewConnection rawConn in
          let started' := started st ++ [KeepReading conn; KeepWriting conn] in
          match call_hook (onConnectedFn s) conn (aworld st) with
          | Done _ w' =>
              Some {| apc := AwaitClosed k conn; started := started';
                      fired := fired st; aworld := w' |}
          | Blocked => None
          | Panicked =>
              Some {| apc := HookPanicked k; started := started';
                      fired := fired st; aworld := aworld st |}
          end
      | AcceptPending => None
      end
  | AwaitClosed k conn =>
      if decide (k ∈ fired st) then
        match call_hook (onDisconnectFn s) conn (aworld st) with
        | Done _ w' =>
            Some {| apc := Accepting (S k); started := started st;
                    fired := fired st; aworld := w' |}
        | Blocked => None
        | Panicked =>
            Some {| apc := HookPanicked k; started := started st;
                    fired := fired st; aworld := aworld st |}
        end
      else None
  | Returned _ _ | HookPanicked _ => None
  end.

(** [keepAccepting] scheduled alone for [fuel] stretches. *)
Fixpoint keepAccepting (fuel : nat) (s : Server) (st : State) : State :=
  match fuel with
  | 0 => st
  | S fuel' =>
      match keepAccepting_step s st with
      | Some st' => keepAccepting fuel' s st'
      | None => st
      end
  end.

(** The number of connections accepted so far. *)
Definition accepted (st : State) : nat :=
  match apc st with
  | Accepting k => k
  | AwaitClosed k _ => S k
  | Returned k _ => k
  | HookPanicked k => S k
  end.

(** What happens next: the accept loop moves, or the closed signal of the
    [k]-th connection, an accepted one, fires. *)
Inductive Move :=
  | ServerMoves
  | ClosedFires (k : nat).

Definition move (s : Server) (mv : Move) (st : State) : option State :=
  match mv with
  | ServerMoves => keepAccepting_step s st
  | ClosedFires k =>
      if decide (k < accepted st) then
        Some {| apc := apc st; started := started st;
                fired := {[k]} ∪ fired st; aworld := aworld st |}
      else None
  end.

Fixpoint play (s : Server) (mvs : list Move) (st : State) : option State :=
  match mvs with
  | [] => Some st
  | mv :: mvs' =>
      match move s mv st with
      | Some st' => play s mvs' st'
      | None => None
      end
  end.


(** The number of the connection the loop is at. *)
Definition turn (st : State) : nat :=
  match apc st with
  | Accepting k | AwaitClosed k _ | Returned k _ | HookPanicked k => k
  end.

(** The accept loop does not wait for connections to close: whenever it has
    run the connect hook of a connection and a next client is there, it
    accepts that client by moves of its own. *)
Definition accepts_without_waiting (s : Server) (w : W) : Prop :=
  ∀ mvs st k conn rawConn,
    play s mvs (boot w) = Some st →
    apc st = AwaitClosed k conn →
    listener s (S k) = Accepted rawConn →
    ∃ n, accepted (keepAccepting n s st) = S (S k).

(** What the position of the accept loop says about the calls of [Accept]
    so far. *)
Definition accept_inv (s : Server) (st : State) : Prop :=
  (∀ j, j < turn st → ∃ rawConn, listener s j = Accepted rawConn) ∧
  match apc st with
  | Accepting _ => True
  | AwaitClosed k conn =>
      ∃ rawConn, listener s k = Accepted rawConn ∧ conn = NewConnection rawConn
  | HookPanicked k => ∃ rawConn, listener s k = Accepted rawConn
  | Returned k err => listener s k = AcceptFailed err
  end.

(** The moves of [n] connections served one after the other: accepted,
    closed, and left. *)
Fixpoint rounds (n : nat) : list Move :=
  match n with
  | 0 => []
  | S n' => rounds n' ++ [ServerMoves; ClosedFires n'; ServerMoves]
  end.

(** The error [keepAccepting] has returned, if it has. *)
Definition returned (st : State) : option error :=
  match apc st with
  | Returned _ err => Some err
  | _ => None
  end.

(** [Serve]: [Listen addr] is the result of [net.Listen("tcp", addr)]. On
    failure [Serve] returns the error, wrapped; on success it stores the
    listener in the server and goes on as [keepAccepting], from its start. *)
Definition Serve (Listen : string → error + (nat → AcceptResult RawConn))
    (s : Server) (w : W) : error + (Server * State) :=
  match Listen (Addr s +:+ ":" +:+ pretty (Port s)) with
  | inl err => inl ("listen tcp failed: " +:+ err)
  | inr lis =>
      inr ({| Addr := Addr s; Port := Port s; listener := lis;
              onConnectedFn := onConnectedFn s;
              onDisconnectFn := onDisconnectFn s |},
           boot w)
  end.

End Server.
End easytcp.

Module slices.
Import router.

(** ** The global middlewares as a Go slice

    In the router above [r.globalMiddlewares] is a list, and
    [append(middles, v...)] a list append: that is what one dispatch sees
    when no other dispatch runs between its two halves. Here the slice is
    what Go makes of it: a view of the first [len] cells of a backing array
    of [cap] cells. [append] writes into that array when its capacity
    allows, at the cells after the view, and every slice of the array sees
    the write; it takes a new, larger array otherwise. [handleReq] is cut in
    two at the point where its goroutine can be overtaken: first it gathers
    the handler and the middlewares (the append), then it wraps and calls
    them (reading the cells). *)

Record Slice := {
  addr : nat;
  len : nat;
  cap : nat;
}.

(** The capacity the Go runtime gives a small slice that has to grow: twice
    the old one, or what is needed if that is more. A slice made with
    [make(..., 0)] and appended to one value at a time has capacities 1, 2,
    4, 8. *)
Definition doubling (old needed : nat) : nat :=
  if decide (2 * old < needed) then needed else 2 * old.

Section Slices.
Context {W Session : Type} `{!SessionOps W Session} `{!Logger W}.

(** The growth of the capacity, of the Go runtime: the capacity of the new
    array, from the old capacity and the number of cells needed. *)
Variable growcap : nat → nat → nat.

(** The backing array of a slice in the heap, a list of arrays; and the
    values the slice shows. *)
Definition cells (h : list (list (@MiddlewareFunc W Session))) (sl : Slice)
  : list (@MiddlewareFunc W Session) :=
  default [] (h !! addr sl).

Definition elems (h : list (list (@MiddlewareFunc W Session))) (sl : Slice)
  : list (@MiddlewareFunc W Session) :=
  take (len sl) (cells h sl).

(** The array [arr] with [vs] written from cell [i] on. *)
Definition store_at (arr : list (@MiddlewareFunc W Session)) (i : nat)
    (vs : list (@MiddlewareFunc W Session)) : list (@MiddlewareFunc W Session) :=
  take i arr ++ vs ++ drop (i + length vs) arr.

(** [append(sl, vs...)]: in place when the capacity allows, in a new array
    at the end of the heap otherwise, its spare cells nil. *)
Definition append (sl : Slice) (vs : list (@MiddlewareFunc W Session))
    (h : list (list (@MiddlewareFunc W Session)))
  : Slice * list (list (@MiddlewareFunc W Session)) :=
  let n := len sl + length vs in
  if decide (n ≤ cap sl) then
    ({| addr := addr sl; len := n; cap := cap sl |},
     <[addr sl := store_at (cells h sl) (len sl) vs]> h)
  else
    let c := growcap (cap sl) n in
    ({| addr := length h; len := n; cap := c |},
     h ++ [elems h sl ++ vs ++ replicate (c - n) None]).

(** The router with its global middlewares as a slice, and the heap the
    slice lives in. *)
Record Shared := {
  handlers : gmap N (@HandlerFunc W Session);
  routes : gmap N (list (@MiddlewareFunc W Session));
  globals : Slice;
  heap : list (list (@MiddlewareFunc W Session));
}.

(** [New]: [make([]MiddlewareFunc, 0)] is a slice of no cell. *)
Definition New : Shared :=
  {| handlers := ∅; routes := ∅;
     globals := {| addr := 0; len := 0; cap := 0 |}; heap := [[]] |}.

Definition Register (id : N) (h : @HandlerFunc W Session)
    (m : list (@MiddlewareFunc W Session)) (r : Shared) : Shared :=
  let hm :=
    match h with
    | Some _ => <[id := h]> (handlers r)
    | None => handlers r
    end in
  let mm :=
    match m with
    | [] => routes r
    | _ :: _ =>
        let ms := keep_non_nil [] m in
        match ms with
        | [] => routes r
        | _ :: _ => <[id := ms]> (routes r)
        end
    end in
  {| handlers := hm; routes := mm; globals := globals r; heap := heap r |}.

(** [r.globalMiddlewares = append(r.globalMiddlewares, mm)] for a non-nil
    [mm]. *)
Definition push (r : Shared) (mm : @MiddlewareFunc W Session) : Shared :=
  match mm with
  | Some _ =>
      let (sl, h) := append (globals r) [mm] (heap r) in
      {| handlers := handlers r; routes := routes r; globals := sl; heap := h |}
  | None => r
  end.

Definition RegisterMiddleware (m : list (@MiddlewareFunc W Session)) (r : Shared)
  : Shared :=
  match m with
  | [] => r
  | _ :: _ => foldl push r m
  end.

(** The router as the lists show it. *)
Definition listed (r : Shared) : @Router W Session :=
  {| handlerMapper := handlers r; middlewaresMapper := routes r;
     globalMiddlewares := elems (heap r) (globals r) |}.

(** The first half of [handleReq], up to the append: the handler, the slice
    [middles], and the router with what the append did to the heap. *)
Definition gather (r : Shared) (id : N)
  : @HandlerFunc W Session * Slice * Shared :=
  let handler :=
    match handlers r !! id with
    | Some v => v
    | None => None
    end in
  match routes r !! id with
  | Some v =>
      let (middles, h) := append (globals r) v (heap r) in
      (handler, middles,
       {| handlers := handlers r; routes := routes r;
          globals := globals r; heap := h |})
  | None => (handler, globals r, r)
  end.

(** The second half of [handleReq]: [wrapHandlers] reads the cells of
    [middles]; the stack is called and the response sent. *)
Definition finish (r : Shared) (handler : @HandlerFunc W Session)
    (middles : Slice) (s : Session) (req : Request) : M W (option error) :=
  wrapped ⇐ wrapHandlers handler (elems (heap r) middles) ;;
  res ⇐ call_handler wrapped s req ;;
  reply s res.

(** [handleReq] with nothing between its two halves. *)
Definition handleReq (r : Shared) (s : Session) (req : Request)
  : Shared * M W (option error) :=
  let '(handler, middles, r') := gather r (Req_ID req) in
  (r', finish r' handler middles s req).

(** The rest of the goroutine of [Loop]: the error is traced. *)
Definition traced (s : Session) (m : M W (option error)) : M W unit :=
  err ⇐ m ;;
  match err with
  | Some err => effect (Tracef (ID s) ("handle request err: " +:+ err))
  | None => M_unit tt
  end.

(** A goroutine of [Loop]: before its append, or between its append and its
    reads. *)
Inductive Task :=
  | Waiting (req : Request)
  | Gathered (req : Request) (handler : @HandlerFunc W Session) (middles : Slice).

(** The router and its heap, the goroutines under the numbers of their
    receives, the world, and whether a panic took the process down. *)
Record Mem := {
  router : Shared;
  tasks : gmap nat Task;
  mworld : W;
  down : bool;
}.

(** The goroutines of a pool of [Loop], none of them run yet. *)
Definition boot (r : Shared) (pool : gmap nat Request) (w : W) : Mem :=
  {| router := r; tasks := Waiting <$> pool; mworld := w; down := false |}.

Inductive Pick :=
  | Gather (k : nat)
  | Finish (k : nat).

Definition step (s : Session) (p : Pick) (m : Mem) : option Mem :=
  if down m then None else
  match p with
  | Gather k =>
      match tasks m !! k with
      | Some (Waiting req) =>
          let '(handler, middles, r') := gather (router m) (Req_ID req) in
          Some {| router := r'; tasks := <[k := Gathered req handler middles]> (tasks m);
                  mworld := mworld m; down := false |}
      | _ => None
      end
  | Finish k =>
      match tasks m !! k with
      | Some (Gathered req handler middles) =>
          match traced s (finish (router m) handler middles s req) (mworld m) with
          | Done _ w' =>
              Some {| router := router m; tasks := delete k (tasks m);
                      mworld := w'; down := false |}
          | Blocked => None
          | Panicked =>
              Some {| router := router m; tasks := tasks m;
                      mworld := mworld m; down := true |}
          end
      | _ => None
      end
  end.

Fixpoint steps (s : Session) (ps : list Pick) (m : Mem) : option Mem :=
  match ps with
  | [] => Some m
  | p :: ps' =>
      match step s p m with
      | Some m' => steps s ps' m'
      | None => None
      end
  end.

(** The slice of the global middlewares has its array in the heap, of the
    size of its capacity. *)
Definition well_formed (r : Shared) : Prop :=
  ∃ arr,
    heap r !! addr (globals r) = Some arr ∧
    length arr = cap (globals r) ∧
    len (globals r) ≤ cap (globals r).

(** What holds of the goroutines when no append writes in place: the router
    is the one they started with, the heap has only grown at its end, and a
    goroutine between its two halves holds the handler and the middlewares
    of its own request. *)
Definition settled (r0 : Shared) (m : Mem) : Prop :=
  handlers (router m) = handlers r0 ∧
  routes (router m) = routes r0 ∧
  globals (router m) = globals r0 ∧
  (∃ ext, heap (router m) = heap r0 ++ ext) ∧
  ∀ k req handler middles,
    tasks m !! k = Some (Gathered req handler middles) →
    handler = handler_of (listed r0) (Req_ID req) ∧
    addr middles < length (heap (router m)) ∧
    elems (heap (router m)) middles = middles_of (listed r0) (Req_ID req).

(** The routers that [New], [Register] and [RegisterMiddleware] build. *)
Inductive built : Shared → Prop :=
  | built_New : built New
  | built_Register id h m r : built r → built (Register id h m r)
  | built_RegisterMiddleware m r : built r → built (RegisterMiddleware m r).

(** The request of a goroutine. *)
Definition request_of (t : Task) : Request :=
  match t with
  | Waiting req | Gathered req _ _ => req
  end.

(** Every goroutine is the one of the request its receive returned. *)
Definition tracked (pool : gmap nat Request) (m : Mem) : Prop :=
  ∀ k t, tasks m !! k = Some t → pool !! k = Some (request_of t).

End Slices.
End slices.

Module mock.
Import router.

(** ** A mock session and concrete handlers, for the examples *)

Record World := {
  outbox : list Response;
  shut : bool;
  logs : list (string * string);
  marks : list string;
}.

Definition fresh : World :=
  {| outbox := []; shut := false; logs := []; marks := [] |}.

(** A session whose inbound channel delivers [inbound] and is then closed
    ([closing = true]) or left open and silent. *)
Record Session := {
  sid : string;
  inbound : list (option Request);
  closing : bool;
}.

#[export] Instance session_ops : SessionOps World Session := {|
  ID := sid;
  RecvReq s k :=
    match inbound s !! k with
    | Some it => RecvItem it
    | None => if closing s then RecvClosed else RecvBlocked
    end;
  SendResp s resp := λ w,
    if shut w then Done (Some "session closed") w
    else Done None {| outbox := outbox w ++ [resp]; shut := shut w;
                      logs := logs w; marks := marks w |};
|}.

#[export] Instance logger : Logger World := {|
  Tracef sid msg w :=
    {| outbox := outbox w; shut := shut w;
       logs := logs w ++ [(sid, msg)]; marks := marks w |};
|}.

Definition tick (x : string) (w : World) : World :=
  {| outbox := outbox w; shut := shut w; logs := logs w;
     marks := marks w ++ [x] |}.

Definition bytes (s : string) : list Byte.byte := list_byte_of_string s.

Definition ping (id : N) : Request := {| Req_ID := id; Req_Data := bytes "ping" |}.
Definition pong : Response := {| Resp_ID := 2; Resp_Data := bytes "pong" |}.

(** A handler that marks its run and answers [pong]. *)
Definition h_pong : HandlerFunc (W:=World) (Session:=Session) :=
  Some (λ _ _, _ ⇐ effect (tick "H") ;; M_unit (Some pong, None)).

(** A handler that fails. *)
Definition h_fail : HandlerFunc (W:=World) (Session:=Session) :=
  Some (λ _ _, M_unit (None, Some "boom")).

(** A handler that answers nothing. *)
Definition h_silent : HandlerFunc (W:=World) (Session:=Session) :=
  Some (λ _ _, M_unit (None, None)).

(** A handler that never returns. *)
Definition h_stuck : HandlerFunc (W:=World) (Session:=Session) :=
  Some (λ _ _ _, Blocked).

Definition mark (x : string) : MiddlewareFunc (W:=World) (Session:=Session) :=
  marking tick x.


Definition sess (inb : list (option Request)) (cl : bool) : Session :=
  {| sid := "s1"; inbound := inb; closing := cl |}.

(** Handlers only: [1] answers, [3] fails, [4] is silent, [5] blocks. *)
Definition plain_router : Router :=
  Register 5 h_stuck []
    (Register 4 h_silent []
       (Register 3 h_fail []
          (Register 1 h_pong [] New))).

(** Global markers [G1], [G2] and, on id [1], route markers [R1], [R2]. *)
Definition marked_router : Router :=
  Register 1 h_pong [mark "R1"; mark "R2"]
    (RegisterMiddleware [mark "G1"; mark "G2"] New).


(** The nil middleware. *)
Definition nil_middleware : MiddlewareFunc (W:=World) (Session:=Session) := None.

(** A session that delivers a request for [5], then one for [1], and is
    closed. *)
Definition two_requests : Session := sess [Some (ping 5); Some (ping 1)] true.


(** The world of a session that is closed already. *)
Definition closed_world : World :=
  {| outbox := []; shut := true; logs := []; marks := [] |}.

(** A server with clients queueing at its listener, connections being
    numbers, and hooks that leave a marker. *)
Definition hook (x : string) : easytcp.ConnectHookFunc (W:=World) (Connection:=nat) :=
  Some (λ _, effect (tick x)).

Definition busy_server : easytcp.Server (W:=World) (RawConn:=nat) (Connection:=nat) :=
  {| easytcp.Addr := "127.0.0.1"; easytcp.Port := 8765;
     easytcp.listener := λ k, easytcp.Accepted k;
     easytcp.onConnectedFn := hook "connected";
     easytcp.onDisconnectFn := hook "disconnected" |}.

(** A server whose listener gives one connection and then fails, and the
    two ways [net.Listen] can go. *)
Definition failing_listener (k : nat) : easytcp.AcceptResult nat :=
  match k with
  | 0 => easytcp.Accepted 7
  | _ => easytcp.AcceptFailed "too many open files"
  end.

Definition failing_server : easytcp.Server (W:=World) (RawConn:=nat) (Connection:=nat) :=
  {| easytcp.Addr := "127.0.0.1"; easytcp.Port := 8765;
     easytcp.listener := failing_listener;
     easytcp.onConnectedFn := hook "connected";
     easytcp.onDisconnectFn := None |}.

Definition listen_on (addr : string) (a : string)
  : easytcp.error + (nat → easytcp.AcceptResult nat) :=
  if String.eqb a addr then inr failing_listener else inl "address not available".

(** A handler that panics, registered for id [6]; and its goroutine
    pending. *)
Definition h_panic : HandlerFunc (W:=World) (Session:=Session) :=
  Some (λ _ _, panic).

Definition panicky_router : Router := Register 6 h_panic [] plain_router.

Definition panic_pending : Config (W:=World) :=
  {| pc := At 1; pool := <[0 := ping 6]> ∅; world := fresh |}.

(** A handler that leaves the marker [x] and answers [pong]. *)
Definition h_named (x : string) : HandlerFunc (W:=World) (Session:=Session) :=
  Some (λ _ _, _ ⇐ effect (tick x) ;; M_unit (Some pong, None)).

(** Five global middlewares, appended one at a time, so that their slice
    shows 5 cells of an array of 8; three middlewares on id [1] and two on
    id [2]. *)
Definition racy_router : slices.Shared (W:=World) (Session:=Session) :=
  slices.Register 2 (h_named "H2") [mark "B1"; mark "B2"]
    (slices.Register 1 (h_named "H1") [mark "A1"; mark "A2"; mark "A3"]
       (slices.RegisterMiddleware slices.doubling
          [mark "G1"; mark "G2"; mark "G3"; mark "G4"; mark "G5"]
          slices.New)).

(** The same with four global middlewares: their slice shows all 4 cells of
    its array. *)
Definition full_router : slices.Shared (W:=World) (Session:=Session) :=
  slices.Register 2 (h_named "H2") [mark "B1"; mark "B2"]
    (slices.Register 1 (h_named "H1") [mark "A1"; mark "A2"; mark "A3"]
       (slices.RegisterMiddleware slices.doubling
          [mark "G1"; mark "G2"; mark "G3"; mark "G4"]
          slices.New)).

(** The goroutines of a request for id [1] and of one for id [2]. *)
Definition two_dispatches : gmap nat Request := <[1 := ping 2]> (<[0 := ping 1]> ∅).

(** The session of [two_requests] after its two receives. *)
Definition both_pending : Config (W:=World) :=
  {| pc := At 2; pool := <[1 := ping 1]> (<[0 := ping 5]> ∅); world := fresh |}.

End mock.

(** * Properties *)

Import router.

Section RegistrationProps.
Context {W Session : Type}.
Implicit Types (m ms : list (@MiddlewareFunc W Session)).
Implicit Types (h : @HandlerFunc W Session) (r : @Router W Session) (id : N).

(** The range loop of [Register] is a filter. *)
Lemma keep_non_nil_filter acc m :
  keep_non_nil acc m = acc ++ filter is_Some m.
Proof.
  revert acc. induction m as [|mm m IH]; intros acc; simpl.
  - by rewrite app_nil_r.
  - destruct mm as [f|].
    + rewrite IH, filter_cons_True by eauto. by rewrite <- app_assoc.
    + rewrite IH, filter_cons_False; [done|]. by intros [? ?].
Qed.

Lemma filter_is_Some_non_nil m : non_nil (filter is_Some m).
Proof. apply Forall_forall. intros x Hx. by apply list_elem_of_filter in Hx as [? _]. Qed.

Lemma filter_is_Some_all_nil m :
  Forall (λ mm, mm = None) m → filter is_Some m = [].
Proof.
  induction 1 as [|mm m -> _ IH]; [done|].
  rewrite filter_cons_False; [done|]. by intros [? ?].
Qed.

Lemma Register_handlerMapper id h m r :
  handlerMapper (Register id h m r) =
  match h with Some _ => <[id := h]> (handlerMapper r) | None => handlerMapper r end.
Proof. done. Qed.

Lemma Register_middlewaresMapper id h m r :
  middlewaresMapper (Register id h m r) =
  match filter is_Some m with
  | [] => middlewaresMapper r
  | ms => <[id := ms]> (middlewaresMapper r)
  end.
Proof.
  unfold Register; cbn [middlewaresMapper]. destruct m as [|mm m]; [done|].
  rewrite keep_non_nil_filter, app_nil_l.
  by destruct (filter is_Some (mm :: m)).
Qed.

Lemma Register_globalMiddlewares id h m r :
  globalMiddlewares (Register id h m r) = globalMiddlewares r.
Proof. done. Qed.

Lemma RegisterMiddleware_globalMiddlewares m r :
  globalMiddlewares (RegisterMiddleware m r) =
  globalMiddlewares r ++ filter is_Some m.
Proof.
  unfold RegisterMiddleware; cbn [globalMiddlewares]. destruct m as [|mm m].
  - by rewrite app_nil_r.
  - apply keep_non_nil_filter.
Qed.

Lemma reachable_nil_free r : reachable r → nil_free r.
Proof.
  induction 1 as [|id h m r _ [IHg IHm]|m r _ [IHg IHm]].
  - split; [constructor|]. intros id ms. cbn [New middlewaresMapper].
    by rewrite lookup_empty.
  - split; [done|]. intros id' ms. rewrite Register_middlewaresMapper.
    destruct (filter is_Some m) as [|a l] eqn:E; [apply IHm|].
    rewrite lookup_insert. case_decide; [|apply IHm].
    intros [= <-]. rewrite <- E. apply filter_is_Some_non_nil.
  - split; [|exact IHm]. rewrite RegisterMiddleware_globalMiddlewares.
    apply Forall_app. split; [done|apply filter_is_Some_non_nil].
Qed.

(** C1, as the code has it: [Register(id, h, ms...)] with a non-nil [h] makes
    [h] the handler stored for [id] (the last [Register] wins; a nil [h]
    leaves the stored handler as it was). The middleware list stored for
    [id] becomes the list of the non-nil middlewares of [ms], in their
    order, in place of the list stored before; when [ms] has no non-nil
    middleware the stored list stays as it was. Nothing is appended to the
    list stored before. *)
Theorem Register_stores id h ms r :
  handlerMapper (Register id h ms r) !! id =
    match h with
    | Some _ => Some h
    | None => handlerMapper r !! id
    end
  ∧ middlewaresMapper (Register id h ms r) !! id =
    match filter is_Some ms with
    | [] => middlewaresMapper r !! id
    | kept => Some kept
    end.
Proof.
  split.
  - rewrite Register_handlerMapper. destruct h; [|done]. apply lookup_insert_eq.
  - rewrite Register_middlewaresMapper.
    destruct (filter is_Some ms); [done|]. apply lookup_insert_eq.
Qed.

(** C9: [Register(id, nil, ms...)] leaves the handler map as it was;
    [Register] with no middleware, or with nil middlewares only, leaves the
    middleware map as it was; [Register] for [id] leaves the handler and the
    middleware list of every other id, and the global list, as they were;
    and in a router built by [New], [Register] and [RegisterMiddleware] no
    stored middleware list, per-route or global, has a nil entry. *)
Theorem Register_nil_frame :
  (∀ id ms r, handlerMapper (Register id None ms r) = handlerMapper r) ∧
  (∀ id h ms r,
     Forall (λ mm, mm = None) ms →
     middlewaresMapper (Register id h ms r) = middlewaresMapper r) ∧
  (∀ id id' h ms r,
     id ≠ id' →
     handlerMapper (Register id h ms r) !! id' = handlerMapper r !! id' ∧
     middlewaresMapper (Register id h ms r) !! id' = middlewaresMapper r !! id' ∧
     globalMiddlewares (Register id h ms r) = globalMiddlewares r) ∧
  (∀ r,
     reachable r →
     non_nil (globalMiddlewares r) ∧
     ∀ id ms, middlewaresMapper r !! id = Some ms → non_nil ms).
Proof.
  split; [done|]. split; [|split].
  - intros id h ms r Hnil. rewrite Register_middlewaresMapper.
    by rewrite filter_is_Some_all_nil.
  - intros id id' h ms r Hne. split; [|split; [|done]].
    + rewrite Register_handlerMapper. destruct h; [|done].
      by rewrite lookup_insert_ne.
    + rewrite Register_middlewaresMapper.
      destruct (filter is_Some ms); [done|]. by rewrite lookup_insert_ne.
  - apply reachable_nil_free.
Qed.

End RegistrationProps.

Section DispatchProps.
Context {W Session : Type} `{!SessionOps W Session} `{!Logger W}.
Implicit Types (ms : list (@MiddlewareFunc W Session)).
Implicit Types (h : @HandlerFunc W Session) (r : @Router W Session).
Implicit Types (s : Session) (req : Request) (w : W).

(** *** The loop of [wrapHandlers] builds the nested wrap *)

Lemma M_then_unit {A B} (a : A) (f : A → M W B) w :
  M_then (M_unit a) f w = f a w.
Proof. done. Qed.

Lemma M_then_assoc {A B C} (m : M W A) (f : A → M W B) (g : B → M W C) w :
  M_then (M_then m f) g w = M_then m (λ a, M_then (f a) g) w.
Proof. unfold M_then. by destruct (m w). Qed.

Lemma M_then_ext {A B} (m : M W A) (f g : A → M W B) w :
  (∀ a w', f a w' = g a w') → M_then m f w = M_then m g w.
Proof. intros Hfg. unfold M_then. destruct (m w); auto. Qed.

Lemma nest_app ms1 ms2 h w :
  nest (ms1 ++ ms2) h w = (inner ⇐ nest ms2 h ;; nest ms1 inner) w.
Proof.
  revert w. induction ms1 as [|m ms1 IH]; intros w; simpl.
  - unfold M_then. by destruct (nest ms2 h w).
  - unfold M_then at 1. rewrite IH. unfold M_then.
    by destruct (nest ms2 h w).
Qed.

Lemma wrap_from_prefix pre suf h w :
  wrap_from (pre ++ suf) (length pre) h w = nest pre h w.
Proof.
  revert suf h w. induction pre as [|m pre IH] using rev_ind; intros suf h w.
  - done.
  - rewrite length_app, Nat.add_comm. cbn [length Nat.add wrap_from].
    rewrite <- app_assoc. change ([m] ++ suf) with (m :: suf).
    rewrite list_lookup_middle by done.
    rewrite nest_app. cbn [nest]. rewrite M_then_assoc, M_then_unit.
    apply M_then_ext. intros inner w'. apply IH.
Qed.

Lemma wrap_from_nest ms h w :
  wrap_from ms (length ms) h w = nest ms h w.
Proof.
  rewrite <- (app_nil_r ms) at 1. apply wrap_from_prefix.
Qed.

Lemma middles_of_route r id :
  middles_of r id = globalMiddlewares r ++ route_middlewares r id.
Proof.
  unfold middles_of, route_middlewares.
  destruct (middlewaresMapper r !! id); [done|]. by rewrite app_nil_r.
Qed.

Lemma wrapHandlers_nest r id w :
  wrapHandlers (handler_of r id) (middles_of r id) w =
  nest (globalMiddlewares r ++ route_middlewares r id) (base_handler r id) w.
Proof.
  unfold wrapHandlers. rewrite wrap_from_nest, middles_of_route.
  unfold base_handler. by destruct (handler_of r id).
Qed.

(** *** Marker middlewares *)

Lemma filter_is_Some_marking {T} (tick : T → W → W) (xs : list T) :
  filter is_Some (marking (Session:=Session) tick <$> xs) = marking tick <$> xs.
Proof.
  induction xs as [|x xs IH]; [done|].
  cbn [fmap list_fmap]. rewrite filter_cons_True by (unfold marking; eauto).
  f_equal. apply IH.
Qed.

Lemma nest_marking {T} (tick : T → W → W) (xs : list T) h w0 :
  ∃ wrapped,
    nest (marking tick <$> xs) h w0 = Done wrapped w0 ∧
    ∀ s req w,
      call_handler wrapped s req w =
      call_handler h s req (foldl (λ w x, tick x w) w xs).
Proof.
  induction xs as [|x xs (inner & Hnest & Hcall)].
  - by exists h.
  - eexists. split.
    + cbn [fmap list_fmap nest]. unfold M_then. rewrite Hnest. reflexivity.
    + intros s req w. cbn. unfold M_then, effect. by rewrite Hcall.
Qed.

(** *** Dispatch *)

Lemma handleReq_chain r s req w :
  handleReq r s req w = (res ⇐ chain r s req ;; reply s res) w.
Proof. unfold handleReq, chain. by rewrite M_then_assoc. Qed.

(** [handleReq] once the result of the chain is known. *)
Local Ltac after_chain Hchain :=
  rewrite handleReq_chain; unfold M_then at 1; rewrite Hchain; cbn [reply].

Lemma chain_nest r s req w :
  chain r s req w =
  (wrapped ⇐ nest (globalMiddlewares r ++ route_middlewares r (Req_ID req))
                  (base_handler r (Req_ID req)) ;;
   call_handler wrapped s req) w.
Proof. unfold chain, M_then. by rewrite wrapHandlers_nest. Qed.

Lemma goroutine_handleReq r s req w :
  goroutine r s req w =
  match handleReq r s req w with
  | Done (Some err) w' =>
      Done tt (Tracef (ID s) ("handle request err: " +:+ err) w')
  | Done None w' => Done tt w'
  | Blocked => Blocked
  | Panicked => Panicked
  end.
Proof.
  unfold goroutine, M_then. by destruct (handleReq r s req w) as [[e|] w'| |].
Qed.

(** One dispatch on the router of lists: for every router, session and
    request, [handleReq] runs the nested wrap [G1(...(Gn(R1(...(Rm(h)))))]
    of the global middlewares, in their order and outermost, around the
    middlewares stored for the id of the request, in their order, around the
    base handler, and replies with what it returns. With global middlewares
    that leave the markers [gs] and
    route middlewares that leave the markers [rs], registered through
    [RegisterMiddleware] and [Register], the markers are left in the order
    [gs], then [rs], and the handler runs after them. *)
Theorem handleReq_nested_wrap :
  (∀ r s req w,
     handleReq r s req w =
     (wrapped ⇐ nest (globalMiddlewares r ++ route_middlewares r (Req_ID req))
                     (base_handler r (Req_ID req)) ;;
      res ⇐ call_handler wrapped s req ;;
      reply s res) w)
  ∧ (∀ (T : Type) (tick : T → W → W) (gs rs : list T) (f : handler_fn) s req w,
       handleReq
         (Register (Req_ID req) (Some f) (marking tick <$> rs)
            (RegisterMiddleware (marking tick <$> gs) New)) s req w =
       (res ⇐ f s req ;; reply s res) (foldl (λ w x, tick x w) w (gs ++ rs))).
Proof.
  split.
  - intros r s req w. rewrite handleReq_chain. unfold M_then at 1.
    rewrite chain_nest. by rewrite <- M_then_assoc.
  - intros T tick gs rs f s req w. rewrite handleReq_chain.
    unfold M_then at 1. rewrite chain_nest.
    set (r := Register _ _ _ _).
    assert (globalMiddlewares r = marking tick <$> gs) as ->.
    { unfold r. rewrite Register_globalMiddlewares,
        RegisterMiddleware_globalMiddlewares. apply filter_is_Some_marking. }
    assert (route_middlewares r (Req_ID req) = marking tick <$> rs) as ->.
    { unfold route_middlewares, r.
      rewrite Register_middlewaresMapper, filter_is_Some_marking.
      destruct rs as [|x rs]; cbn [fmap list_fmap].
      - cbn [RegisterMiddleware New middlewaresMapper]. by rewrite lookup_empty.
      - by rewrite lookup_insert_eq. }
    assert (base_handler r (Req_ID req) = Some f) as ->.
    { unfold base_handler, handler_of, r.
      by rewrite Register_handlerMapper, lookup_insert_eq. }
    rewrite <- fmap_app.
    destruct (nest_marking tick (gs ++ rs) (Some f) w) as (wrapped & Hnest & Hcall).
    unfold M_then at 1. rewrite Hnest, Hcall. reflexivity.
Qed.


(** *** The goroutines and the loop *)

Lemma run_goroutine_done r s k c req w' :
  pc c ≠ Crashed →
  pool c !! k = Some req →
  goroutine r s req (world c) = Done tt w' →
  run_goroutine r s k c =
  Some {| pc := pc c; pool := delete k (pool c); world := w' |}.
Proof.
  intros Hpc Hk Hg. unfold run_goroutine. rewrite Hk, Hg.
  by destruct (pc c).
Qed.

Lemma Loop_iter_request s c j req :
  pc c = At j →
  RecvReq s j = RecvItem (Some req) →
  Loop_iter s c =
  Some {| pc := At (S j); pool := <[j := req]> (pool c); world := world c |}.
Proof. intros Hpc Hrecv. unfold Loop_iter. by rewrite Hpc, Hrecv. Qed.

Lemma goroutine_goes_on r s req w w' :
  goroutine r s req w = Done tt w' → goes_on r s req w w'.
Proof.
  intros Hg c k Hpc Hk <-. eexists. split; [by eapply run_goroutine_done|].
  repeat split. intros j req' Hj Hrecv. by apply Loop_iter_request.
Qed.

(** C5: when the composed chain of a request returns an error, [handleReq]
    sends nothing (the world is the one the chain left: [SendResp] is not
    called) and returns the error; the goroutine of the request records it
    with [Tracef] and returns; and the loop goes on: it stands where it
    stood and dispatches its next request. *)
Theorem handler_error_no_reply r s req w resp err w' :
  chain r s req w = Done (resp, Some err) w' →
  handleReq r s req w = Done (Some ("handler err: " +:+ err)) w'
  ∧ goroutine r s req w =
      Done tt (Tracef (ID s) ("handle request err: " +:+ ("handler err: " +:+ err)) w')
  ∧ goes_on r s req w
      (Tracef (ID s) ("handle request err: " +:+ ("handler err: " +:+ err)) w').
Proof.
  intros Hchain.
  assert (handleReq r s req w = Done (Some ("handler err: " +:+ err)) w') as Hh
    by (by after_chain Hchain).
  assert (goroutine r s req w =
    Done tt (Tracef (ID s) ("handle request err: " +:+ ("handler err: " +:+ err)) w'))
    as Hg by (by rewrite goroutine_handleReq, Hh).
  auto using goroutine_goes_on.
Qed.

(** C6: when the composed chain of a request returns a nil response and a
    nil error, [handleReq] returns nil without calling [SendResp]: the world
    is the one the chain left; the goroutine of the request returns with
    nothing recorded. *)
Theorem nil_response_no_reply r s req w w' :
  chain r s req w = Done (None, None) w' →
  handleReq r s req w = Done None w' ∧ goroutine r s req w = Done tt w'.
Proof.
  intros Hchain.
  assert (handleReq r s req w = Done None w') as Hh
    by (by after_chain Hchain).
  split; [done|]. by rewrite goroutine_handleReq, Hh.
Qed.

(** *** Termination of the loop *)

Lemma start_inv s w : loop_inv s (start w).
Proof. intros j Hj. lia. Qed.

Lemma Loop_iter_inv s c c' :
  loop_inv s c → Loop_iter s c = Some c' → loop_inv s c'.
Proof.
  unfold loop_inv, Loop_iter. destruct (pc c) as [k| |]; [|done..].
  intros Hinv. destruct (RecvReq s k) as [[req|]| |] eqn:Hrecv;
    intros [= <-]; cbn [pc].
  - intros j Hj. destruct (decide (j = k)) as [->|]; [eauto|]. apply Hinv. lia.
  - intros j Hj. destruct (decide (j = k)) as [->|]; [eauto|]. apply Hinv. lia.
  - by exists k.
Qed.

Lemma run_goroutine_inv r s k c c' :
  loop_inv s c → run_goroutine r s k c = Some c' → loop_inv s c'.
Proof.
  unfold run_goroutine. intros Hinv.
  destruct (pc c) eqn:Hpc; [| |done];
    (destruct (pool c !! k) as [req|]; [|done]);
    (destruct (goroutine r s req (world c)); [|done|]);
    intros [= <-]; unfold loop_inv in *; cbn [pc]; by rewrite ?Hpc in *.
Qed.

Lemma run_inv r s sched c c' :
  loop_inv s c → run r s sched c = Some c' → loop_inv s c'.
Proof.
  revert c. induction sched as [|ch sched IH]; intros c Hinv; cbn [run].
  - by intros [= <-].
  - destruct (exec r s ch c) as [c1|] eqn:Hexec; [|done].
    apply IH. destruct ch; cbn [exec] in Hexec;
      eauto using Loop_iter_inv, run_goroutine_inv.
Qed.

Lemma Loop_inv fuel s c : loop_inv s c → loop_inv s (Loop fuel s c).
Proof.
  revert c. induction fuel as [|fuel IH]; intros c Hinv; cbn [Loop]; [done|].
  destruct (Loop_iter s c) as [c1|] eqn:Hiter; [|done].
  eauto using Loop_iter_inv.
Qed.

Lemma Loop_reaches_exit s n c j :
  pc c = At j →
  (∀ i, j ≤ i < j + n → ∃ it, RecvReq s i = RecvItem it) →
  RecvReq s (j + n) = RecvClosed →
  pc (Loop (S n) s c) = Exited.
Proof.
  revert c j. induction n as [|n IH]; intros c j Hpc Hitems Hclosed.
  - rewrite Nat.add_0_r in Hclosed. cbn [Loop]. unfold Loop_iter.
    by rewrite Hpc, Hclosed.
  - destruct (Hitems j) as [it Hit]; [lia|].
    change (Loop (S (S n)) s c) with
      (match Loop_iter s c with Some c' => Loop (S n) s c' | None => c end).
    unfold Loop_iter at 1. rewrite Hpc, Hit.
    destruct it as [req|]; apply (IH _ (S j)); try done;
      try (intros i Hi; apply Hitems; lia);
      by replace (S j + n) with (j + S n) by lia.
Qed.

Lemma Loop_exits_iff_closes s w :
  (∃ fuel, pc (Loop fuel s (start w)) = Exited) ↔ closes s.
Proof.
  split.
  - intros [fuel Hexit]. pose proof (Loop_inv fuel s _ (start_inv s w)) as Hinv.
    unfold loop_inv in Hinv. by rewrite Hexit in Hinv.
  - intros (k & Hclosed & Hitems). exists (S k).
    apply (Loop_reaches_exit s k _ 0); [done| |done].
    intros i Hi. apply Hitems. lia.
Qed.

(** C7: when the chain of a request returns a response and [SendResp]
    fails, [handleReq] returns the error, the goroutine of the request
    records it with [Tracef] and returns, and the loop goes on. The loop of
    [Loop] reaches its exit if and only if the inbound source of the session
    closes, and no interleaving with the goroutines makes it exit
    otherwise. *)
Theorem send_failure_not_fatal :
  (∀ r s req w resp w' err w'',
     chain r s req w = Done (Some resp, None) w' →
     SendResp s resp w' = Done (Some err) w'' →
     handleReq r s req w =
       Done (Some ("session send response err: " +:+ err)) w''
     ∧ goroutine r s req w =
         Done tt (Tracef (ID s)
           ("handle request err: " +:+ ("session send response err: " +:+ err)) w'')
     ∧ goes_on r s req w
         (Tracef (ID s)
           ("handle request err: " +:+ ("session send response err: " +:+ err)) w''))
  ∧ (∀ s w, (∃ fuel, pc (Loop fuel s (start w)) = Exited) ↔ closes s)
  ∧ (∀ r s sched w c,
       run r s sched (start w) = Some c → pc c = Exited → closes s).
Proof.
  split; [|split].
  - intros r s req w resp w' err w'' Hchain Hsend.
    assert (handleReq r s req w =
      Done (Some ("session send response err: " +:+ err)) w'') as Hh.
    { after_chain Hchain. unfold M_then. by rewrite Hsend. }
    assert (goroutine r s req w =
      Done tt (Tracef (ID s)
        ("handle request err: " +:+ ("session send response err: " +:+ err)) w''))
      as Hg by (by rewrite goroutine_handleReq, Hh).
    auto using goroutine_goes_on.
  - apply Loop_exits_iff_closes.
  - intros r s sched w c Hrun Hexit.
    pose proof (run_inv r s sched _ _ (start_inv s w) Hrun) as Hinv.
    unfold loop_inv in Hinv. by rewrite Hexit in Hinv.
Qed.

(** C10: on a nil request the loop of [Loop] starts no goroutine, so that no
    handler runs and nothing is sent: the pool and the world are as before;
    and it goes to its next receive. *)
Theorem Loop_skips_nil s c k :
  pc c = At k →
  RecvReq s k = RecvItem None →
  Loop_iter s c = Some {| pc := At (S k); pool := pool c; world := world c |}
  ∧ ∀ fuel,
      Loop (S fuel) s c =
      Loop fuel s {| pc := At (S k); pool := pool c; world := world c |}.
Proof.
  intros Hpc Hrecv.
  assert (Loop_iter s c =
    Some {| pc := At (S k); pool := pool c; world := world c |}) as Hiter
    by (unfold Loop_iter; by rewrite Hpc, Hrecv).
  split; [done|]. intros fuel. cbn [Loop]. by rewrite Hiter.
Qed.

(** *** A blocked goroutine *)

Lemma exec_park r s kx reqX ch c c' :
  spare kx c →
  exec r s ch c = Some c' →
  exec r s ch (park kx reqX c) = Some (park kx reqX c') ∧ spare kx c'.
Proof.
  intros [Hkx Hfresh]. destruct ch as [|k]; cbn [exec].
  - unfold Loop_iter, park; cbn [pc pool world].
    destruct (pc c) as [k| |] eqn:Hpc; [|done..].
    specialize (Hfresh k eq_refl).
    destruct (RecvReq s k) as [[req|]| |]; intros [= <-]; cbn [pc pool world].
    + split.
      * do 2 f_equal. apply insert_insert_ne. lia.
      * split; cbn [pc pool].
        -- rewrite lookup_insert_ne by lia. done.
        -- intros ? [= <-]. lia.
    + split; [done|]. split; cbn [pc pool]; [done|]. intros ? [= <-]. lia.
    + split; [done|]. split; cbn [pc pool]; [done|]. done.
  - unfold run_goroutine, park; cbn [pc pool world].
    destruct (decide (k = kx)) as [->|Hne].
    { rewrite Hkx. by destruct (pc c). }
    rewrite lookup_insert_ne by done.
    destruct (pc c) as [j| |] eqn:Hpc; [| |done];
      (destruct (pool c !! k) as [req|]; [|done]);
      (destruct (goroutine r s req (world c)); [|done|]);
      intros [= <-]; cbn [pc pool world];
      (split; [do 2 f_equal; by rewrite ?delete_insert_ne by done|]);
      (split; cbn [pc pool];
         [by rewrite ?lookup_delete_ne by done|by rewrite ?Hpc]).
Qed.

End DispatchProps.

Section AcceptProps.
Import easytcp.
Context {W RawConn Connection : Type} (NewConnection : RawConn → Connection).
Implicit Types (s : @Server W RawConn Connection) (st : @State W Connection).

Lemma accepted_turn st : accepted st ≤ S (turn st).
Proof. unfold accepted, turn. destruct (apc st); lia. Qed.

Lemma keepAccepting_step_waited s st st' :
  (∀ j, j < turn st → j ∈ fired st) →
  keepAccepting_step NewConnection s st = Some st' →
  ∀ j, j < turn st' → j ∈ fired st'.
Proof.
  unfold keepAccepting_step, turn. intros Hinv.
  destruct (apc st) as [k|k conn|k err|k] eqn:Hpc; [| |done..].
  - destruct (listener s k) as [rawConn|err|]; [| |done].
    + destruct (call_hook _ _ _); [|done|]; by intros [= <-].
    + by intros [= <-].
  - case_decide as Hk; [|done].
    destruct (call_hook _ _ _); [|done|]; intros [= <-]; cbn [apc fired]; [|done].
    intros j Hj. destruct (decide (j = k)) as [->|]; [done|]. apply Hinv. lia.
Qed.

Lemma move_waited s mv st st' :
  (∀ j, j < turn st → j ∈ fired st) →
  move NewConnection s mv st = Some st' →
  ∀ j, j < turn st' → j ∈ fired st'.
Proof.
  destruct mv as [|k]; cbn [move]; [apply keepAccepting_step_waited|].
  intros Hinv. case_decide; [|done]. intros [= <-] j Hj.
  unfold turn in *; cbn [apc fired] in *. set_solver.
Qed.

Lemma play_waited s mvs st st' :
  (∀ j, j < turn st → j ∈ fired st) →
  play NewConnection s mvs st = Some st' →
  ∀ j, j < turn st' → j ∈ fired st'.
Proof.
  revert st. induction mvs as [|mv mvs IH]; intros st Hinv; cbn [play].
  - by intros [= <-].
  - destruct (move NewConnection s mv st) as [st1|] eqn:Hmv; [|done].
    apply IH. eauto using move_waited.
Qed.

(** C3, as the code has it: for an accepted connection the accept loop
    starts the read and write loops, runs the connect hook itself, and then
    waits at the closed signal of that connection: it does not move while the
    signal has not fired; when it has, the loop runs the disconnect hook and
    goes to its next [Accept]. So a connection is accepted only after the
    closed signal of every connection before it has fired. *)
Theorem accept_waits_for_close s :
  (∀ st k rawConn w',
     apc st = Accepting k →
     listener s k = Accepted rawConn →
     call_hook (onConnectedFn s) (NewConnection rawConn) (aworld st) = Done tt w' →
     keepAccepting_step NewConnection s st =
     Some {| apc := AwaitClosed k (NewConnection rawConn);
             started := started st ++ [KeepReading (NewConnection rawConn);
                                       KeepWriting (NewConnection rawConn)];
             fired := fired st; aworld := w' |})
  ∧ (∀ st k conn,
       apc st = AwaitClosed k conn → k ∉ fired st →
       keepAccepting_step NewConnection s st = None)
  ∧ (∀ st k conn w',
       apc st = AwaitClosed k conn → k ∈ fired st →
       call_hook (onDisconnectFn s) conn (aworld st) = Done tt w' →
       keepAccepting_step NewConnection s st =
       Some {| apc := Accepting (S k); started := started st;
               fired := fired st; aworld := w' |})
  ∧ (∀ mvs w st j,
       play NewConnection s mvs (boot w) = Some st →
       S j < accepted st → j ∈ fired st).
Proof.
  repeat split.
  - intros st k rawConn w' Hpc Hacc Hhook. unfold keepAccepting_step.
    by rewrite Hpc, Hacc, Hhook.
  - intros st k conn Hpc Hk. unfold keepAccepting_step. rewrite Hpc.
    by case_decide.
  - intros st k conn w' Hpc Hk Hhook. unfold keepAccepting_step. rewrite Hpc.
    case_decide; [|done]. by rewrite Hhook.
  - intros mvs w st j Hplay Hj.
    apply (play_waited s mvs (boot w) st); [|done|].
    + intros i Hi. unfold turn in Hi; cbn in Hi. lia.
    + pose proof (accepted_turn st). lia.
Qed.

End AcceptProps.

(** * Examples on the mock session *)

Section Examples.
Import mock.

(** The markers of the specification's scenario: [G1], [G2], [R1], [R2], and
    then the handler. *)
Example marked_router_order :
  handleReq marked_router (sess [] true) (ping 1) fresh =
  Done None {| outbox := [pong]; shut := false; logs := [];
               marks := ["G1"; "G2"; "R1"; "R2"; "H"] |}.
Proof. reflexivity. Qed.

(** C1 fails as stated: a second [Register] for the same id replaces the
    middleware list of the first one, it does not append to it. *)
Lemma Register_replaces_list :
  middlewaresMapper (Register 1 h_pong [mark "a"] New) !! 1%N = Some [mark "a"]
  ∧ middlewaresMapper
      (Register 1 h_pong [mark "b"] (Register 1 h_pong [mark "a"] New)) !! 1%N
    = Some [mark "b"]
  ∧ middlewaresMapper
      (Register 1 h_pong [mark "b"] (Register 1 h_pong [mark "a"] New)) !! 1%N
    ≠ Some ([mark "a"] ++ [mark "b"]).
Proof.
  split; [reflexivity|]. split; [reflexivity|].
  change (Some [mark "b"] ≠ Some ([mark "a"] ++ [mark "b"])).
  intros [=].
Qed.


(** C3 fails as stated: with a second client at the listener, the accept loop
    that has run the connect hook of the first connection accepts nobody
    until that connection closes. *)
Lemma accept_loop_blocks :
  ¬ easytcp.accepts_without_waiting (λ rawConn : nat, rawConn) busy_server fresh.
Proof.
  intros Hclaim.
  destruct (Hclaim [easytcp.ServerMoves]
              {| easytcp.apc := easytcp.AwaitClosed 0 0;
                 easytcp.started := [easytcp.KeepReading 0; easytcp.KeepWriting 0];
                 easytcp.fired := ∅;
                 easytcp.aworld := tick "connected" fresh |}
              0 0 1 eq_refl eq_refl eq_refl) as [n Hn].
  destruct n as [|n]; vm_compute in Hn; discriminate Hn.
Qed.

(** Registration with nil arguments, on the routers of the mock. *)
Lemma Register_nil_frame_witness :
  handlerMapper (Register 1 None [mark "x"] plain_router) = handlerMapper plain_router
  ∧ (Forall (λ mm, mm = None) [nil_middleware; nil_middleware]
     ∧ middlewaresMapper (Register 1 h_fail [nil_middleware; nil_middleware] marked_router)
       = middlewaresMapper marked_router)
  ∧ (1%N ≠ 3%N
     ∧ handlerMapper (Register 1 h_fail [mark "x"] plain_router) !! 3%N
       = handlerMapper plain_router !! 3%N)
  ∧ (reachable marked_router
     ∧ non_nil (globalMiddlewares marked_router)).
Proof.
  destruct (Register_nil_frame (W:=World) (Session:=Session))
    as (Hhandler & Hnil & Hframe & Hreach).
  assert (Forall (λ mm, mm = None) [nil_middleware; nil_middleware]) as Hall
    by (repeat constructor).
  assert (1%N ≠ 3%N) as Hne by discriminate.
  assert (reachable marked_router) as Hr
    by apply reach_Register, reach_RegisterMiddleware, reach_New.
  split; [apply Hhandler|].
  split; [split; [exact Hall|apply Hnil, Hall]|].
  split; [split; [exact Hne|apply (Hframe 1%N 3%N), Hne]|].
  split; [exact Hr|apply Hreach, Hr].
Defined.


(** The handler of id [3] fails: nothing is sent, the error is recorded. *)
Lemma handler_error_no_reply_witness :
  chain plain_router (sess [] true) (ping 3) fresh = Done (None, Some "boom") fresh
  ∧ handleReq plain_router (sess [] true) (ping 3) fresh
    = Done (Some "handler err: boom") fresh
  ∧ goroutine plain_router (sess [] true) (ping 3) fresh
    = Done tt {| outbox := []; shut := false;
                 logs := [("s1", "handle request err: handler err: boom")];
                 marks := [] |}.
Proof.
  assert (chain plain_router (sess [] true) (ping 3) fresh
          = Done (None, Some "boom") fresh) as Hchain by reflexivity.
  split; [exact Hchain|].
  destruct (handler_error_no_reply _ _ _ _ _ _ _ Hchain) as (Hh & Hg & _).
  split; [exact Hh|exact Hg].
Defined.

(** The handler of id [4] is silent: nothing is sent, nothing recorded. *)
Lemma nil_response_no_reply_witness :
  chain plain_router (sess [] true) (ping 4) fresh = Done (None, None) fresh
  ∧ handleReq plain_router (sess [] true) (ping 4) fresh = Done None fresh
  ∧ goroutine plain_router (sess [] true) (ping 4) fresh = Done tt fresh.
Proof.
  assert (chain plain_router (sess [] true) (ping 4) fresh
          = Done (None, None) fresh) as Hchain by reflexivity.
  split; [exact Hchain|].
  exact (nil_response_no_reply _ _ _ _ _ Hchain).
Defined.

(** The handler of id [1] answers on a session that is closed already; and
    a session that delivers one request and closes. *)
Lemma send_failure_not_fatal_witness :
  (chain plain_router (sess [] true) (ping 1) closed_world
     = Done (Some pong, None) (tick "H" closed_world)
   ∧ SendResp (sess [] true) pong (tick "H" closed_world)
     = Done (Some "session closed") (tick "H" closed_world)
   ∧ handleReq plain_router (sess [] true) (ping 1) closed_world
     = Done (Some "session send response err: session closed") (tick "H" closed_world))
  ∧ (run plain_router (sess [Some (ping 4)] true) [TickLoop; RunTask 0; TickLoop]
       (start fresh)
     = Some {| pc := Exited; pool := ∅;
               world := {| outbox := []; shut := false;
                           logs := [("s1", "loop stopped since session is closed");
                                    ("s1", "loop exit")];
                           marks := [] |} |}
     ∧ closes (sess [Some (ping 4)] true)).
Proof.
  destruct (send_failure_not_fatal (W:=World) (Session:=Session))
    as (Hsend & _ & Hexit).
  assert (chain plain_router (sess [] true) (ping 1) closed_world
          = Done (Some pong, None) (tick "H" closed_world)) as Hchain by reflexivity.
  assert (SendResp (sess [] true) pong (tick "H" closed_world)
          = Done (Some "session closed") (tick "H" closed_world)) as Hfail
    by reflexivity.
  assert (run plain_router (sess [Some (ping 4)] true)
            [TickLoop; RunTask 0; TickLoop] (start fresh)
          = Some {| pc := Exited; pool := ∅;
                    world := {| outbox := []; shut := false;
                                logs := [("s1", "loop stopped since session is closed");
                                         ("s1", "loop exit")];
                                marks := [] |} |}) as Hrun by reflexivity.
  split.
  - split; [exact Hchain|]. split; [exact Hfail|].
    exact (proj1 (Hsend _ _ _ _ _ _ _ _ Hchain Hfail)).
  - split; [exact Hrun|]. exact (Hexit _ _ _ _ _ Hrun eq_refl).
Defined.

(** A nil request, then the channel is closed. *)
Lemma Loop_skips_nil_witness :
  pc (start fresh) = At 0
  ∧ RecvReq (sess [None] true) 0 = RecvItem None
  ∧ Loop_iter (sess [None] true) (start fresh)
    = Some {| pc := At 1; pool := ∅; world := fresh |}.
Proof.
  split; [reflexivity|]. split; [reflexivity|].
  exact (proj1 (Loop_skips_nil (sess [None] true) (start fresh) 0 eq_refl eq_refl)).
Defined.

(** The second client is accepted after the closed signal of the first
    connection has fired, and not before. *)
Lemma accept_waits_for_close_witness :
  easytcp.play (λ rawConn : nat, rawConn) busy_server
    [easytcp.ServerMoves; easytcp.ClosedFires 0; easytcp.ServerMoves;
     easytcp.ServerMoves] (easytcp.boot fresh)
  = Some {| easytcp.apc := easytcp.AwaitClosed 1 1;
            easytcp.started := [easytcp.KeepReading 0; easytcp.KeepWriting 0;
                                easytcp.KeepReading 1; easytcp.KeepWriting 1];
            easytcp.fired := {[0]} ∪ ∅;
            easytcp.aworld := tick "connected" (tick "disconnected" (tick "connected" fresh)) |}
  ∧ 0 ∈ ({[0]} ∪ ∅ : gset nat)
  ∧ easytcp.keepAccepting_step (λ rawConn : nat, rawConn) busy_server
      {| easytcp.apc := easytcp.AwaitClosed 0 0;
         easytcp.started := [easytcp.KeepReading 0; easytcp.KeepWriting 0];
         easytcp.fired := ∅;
         easytcp.aworld := tick "connected" fresh |}
    = None.
Proof.
  destruct (accept_waits_for_close (λ rawConn : nat, rawConn) busy_server)
    as (_ & Hwait & _ & Hfired).
  assert (easytcp.play (λ rawConn : nat, rawConn) busy_server
            [easytcp.ServerMoves; easytcp.ClosedFires 0; easytcp.ServerMoves;
             easytcp.ServerMoves] (easytcp.boot fresh)
          = Some {| easytcp.apc := easytcp.AwaitClosed 1 1;
                    easytcp.started := [easytcp.KeepReading 0; easytcp.KeepWriting 0;
                                        easytcp.KeepReading 1; easytcp.KeepWriting 1];
                    easytcp.fired := {[0]} ∪ ∅;
                    easytcp.aworld :=
                      tick "connected" (tick "disconnected" (tick "connected" fresh)) |})
    as Hplay by reflexivity.
  split; [exact Hplay|]. split.
  - apply (Hfired _ _ _ 0 Hplay). cbn. lia.
  - apply (Hwait _ 0 0); [reflexivity|]. apply not_elem_of_empty.
Defined.

End Examples.

(** * More on registration *)

Section RegistrationAlgebra.
Context {W Session : Type}.
Implicit Types (m ms : list (@MiddlewareFunc W Session)).
Implicit Types (h : @HandlerFunc W Session) (r : @Router W Session) (id : N).

Lemma Router_eq r1 r2 :
  handlerMapper r1 = handlerMapper r2 →
  middlewaresMapper r1 = middlewaresMapper r2 →
  globalMiddlewares r1 = globalMiddlewares r2 →
  r1 = r2.
Proof. destruct r1, r2; cbn. by intros -> -> ->. Qed.

(** X1: [RegisterMiddleware] appends the non-nil middlewares it is given, in
    their order, to the global list, and leaves the handlers and the
    per-route lists alone; two calls in a row amount to one call with the
    two argument lists in a row: the global list grows call after call. *)
Theorem RegisterMiddleware_appends ms1 ms2 r :
  globalMiddlewares (RegisterMiddleware ms1 r) =
    globalMiddlewares r ++ filter is_Some ms1
  ∧ handlerMapper (RegisterMiddleware ms1 r) = handlerMapper r
  ∧ middlewaresMapper (RegisterMiddleware ms1 r) = middlewaresMapper r
  ∧ RegisterMiddleware ms2 (RegisterMiddleware ms1 r) =
    RegisterMiddleware (ms1 ++ ms2) r.
Proof.
  split; [apply RegisterMiddleware_globalMiddlewares|].
  split; [done|]. split; [done|].
  apply Router_eq; [done..|].
  rewrite !RegisterMiddleware_globalMiddlewares, filter_app.
  by rewrite <- app_assoc.
Qed.

(** X2: [Register] is idempotent: the same call twice leaves the router as
    the first call left it. *)
Theorem Register_idempotent id h ms r :
  Register id h ms (Register id h ms r) = Register id h ms r.
Proof.
  apply Router_eq; [| |done].
  - rewrite !Register_handlerMapper. destruct h; [|done].
    apply insert_insert_eq.
  - rewrite !Register_middlewaresMapper.
    destruct (filter is_Some ms); [done|]. apply insert_insert_eq.
Qed.

(** X3: registrations for different ids can be made in any order, and so
    can a registration for an id and one of global middlewares: the router
    is the same. *)
Theorem Register_commutes :
  (∀ id1 id2 h1 h2 ms1 ms2 r,
     id1 ≠ id2 →
     Register id1 h1 ms1 (Register id2 h2 ms2 r) =
     Register id2 h2 ms2 (Register id1 h1 ms1 r))
  ∧ (∀ id h ms gs r,
       Register id h ms (RegisterMiddleware gs r) =
       RegisterMiddleware gs (Register id h ms r)).
Proof.
  split.
  - intros id1 id2 h1 h2 ms1 ms2 r Hne. apply Router_eq; [| |done].
    + rewrite !Register_handlerMapper. destruct h1, h2; try done.
      by apply insert_insert_ne.
    + rewrite !Register_middlewaresMapper.
      destruct (filter is_Some ms1), (filter is_Some ms2); try done.
      by apply insert_insert_ne.
  - intros id h ms gs r. by apply Router_eq.
Qed.

End RegistrationAlgebra.

(** * More on dispatch *)

Section DispatchMore.
Context {W Session : Type} `{!SessionOps W Session} `{!Logger W}.
Implicit Types (ms : list (@MiddlewareFunc W Session)).
Implicit Types (h : @HandlerFunc W Session) (r : @Router W Session).
Implicit Types (s : Session) (req : Request) (w : W).

(** X5: when the chain of a request returns a response and no error, and
    [SendResp] takes it, [handleReq] has sent that response, once, and
    returns nil; the goroutine of the request records nothing. *)
Theorem response_forwarded r s req w resp w' w'' :
  chain r s req w = Done (Some resp, None) w' →
  SendResp s resp w' = Done None w'' →
  handleReq r s req w = Done None w'' ∧ goroutine r s req w = Done tt w''.
Proof.
  intros Hchain Hsend.
  assert (handleReq r s req w = Done None w'') as Hh.
  { rewrite handleReq_chain. unfold M_then at 1. rewrite Hchain. cbn [reply].
    unfold M_then. by rewrite Hsend. }
  split; [done|]. by rewrite goroutine_handleReq, Hh.
Qed.

(** *** Nil middlewares *)

Lemma nest_safe ms h w : Forall wraps_safely ms → nest ms h w ≠ Panicked.
Proof.
  intros Hsafe. revert w.
  induction Hsafe as [|m ms (f & -> & Hf) _ IH]; intros w; [done|].
  cbn [nest]. unfold M_then. specialize (IH w).
  destruct (nest ms h w) as [inner w'| |]; [apply Hf|done|done].
Qed.

Lemma nest_nil_last ms h w : nest (ms ++ [None]) h w = Panicked.
Proof. by rewrite nest_app. Qed.

(** X7: a nil middleware makes [wrapHandlers] panic: one at the end of the
    list always does. [Register] and [RegisterMiddleware] keep them out: on a
    router built by [New], [Register] and [RegisterMiddleware],
    [wrapHandlers] on the handler and middlewares of an id does not panic
    unless a registered middleware does. *)
Theorem wrapHandlers_nil_panic :
  (∀ h ms w, wrapHandlers h (ms ++ [None]) w = Panicked)
  ∧ (∀ r id w,
       reachable r →
       (∀ f, Some f ∈ globalMiddlewares r ++ route_middlewares r id →
             ∀ next w', f next w' ≠ Panicked) →
       wrapHandlers (handler_of r id) (middles_of r id) w ≠ Panicked).
Proof.
  split.
  - intros h ms w. unfold wrapHandlers. rewrite wrap_from_nest.
    apply nest_nil_last.
  - intros r id w Hreach Hsafe. rewrite wrapHandlers_nest. apply nest_safe.
    destruct (reachable_nil_free r Hreach) as [Hg Hm].
    assert (non_nil (globalMiddlewares r ++ route_middlewares r id)) as Hnn.
    { apply Forall_app. split; [done|]. unfold route_middlewares.
      destruct (middlewaresMapper r !! id) as [l|] eqn:Hl; [by eapply Hm|].
      constructor. }
    apply Forall_forall. intros m Hin.
    pose proof (proj1 (Forall_forall _ _) Hnn m Hin) as [f ->].
    exists f. split; [done|]. by apply Hsafe.
Qed.

End DispatchMore.

(** * More on the loop and its goroutines *)

Section LoopMore.
Context {W Session : Type} `{!SessionOps W Session} `{!Logger W}.
Implicit Types (r : @Router W Session) (s : Session) (w : W).
Implicit Types (c : @Config W) (sched : list Choice).

Lemma Loop_plus a b s c : Loop (a + b) s c = Loop b s (Loop a s c).
Proof.
  revert c. induction a as [|a IH]; intros c; [done|].
  cbn [Nat.add Loop]. destruct (Loop_iter s c) as [c'|] eqn:Hiter; [apply IH|].
  destruct b; [done|]. cbn [Loop]. by rewrite Hiter.
Qed.

Lemma Loop_over fuel s c : pc c = Exited → Loop fuel s c = c.
Proof.
  intros Hpc. destruct fuel; [done|]. cbn [Loop]. unfold Loop_iter.
  by rewrite Hpc.
Qed.

(** The loop over [n] values, from any position. *)
Lemma Loop_items s n c j :
  pc c = At j →
  (∀ i, j ≤ i < j + n → ∃ it, RecvReq s i = RecvItem it) →
  pc (Loop n s c) = At (j + n) ∧ world (Loop n s c) = world c ∧
  ∀ i, pool (Loop n s c) !! i =
       if decide (j ≤ i < j + n) then
         match RecvReq s i with
         | RecvItem (Some req) => Some req
         | _ => pool c !! i
         end
       else pool c !! i.
Proof.
  revert c j. induction n as [|n IH]; intros c j Hpc Hitems.
  - cbn [Loop]. rewrite Nat.add_0_r. repeat split; [done|].
    intros i. case_decide; [lia|done].
  - destruct (Hitems j) as [it Hit]; [lia|].
    cbn [Loop]. unfold Loop_iter at 1 2 3. rewrite Hpc, Hit.
    destruct it as [req|].
    + destruct (IH {| pc := At (S j); pool := <[j:=req]> (pool c); world := world c |}
                  (S j) eq_refl) as (Hpc' & Hw' & Hpool').
      { intros i Hi. apply Hitems. lia. }
      split; [rewrite Hpc'; f_equal; lia|]. split; [done|].
      intros i. rewrite Hpool'. cbn [pool].
      destruct (decide (i = j)) as [->|Hne].
      * rewrite lookup_insert_eq, Hit.
        case_decide; [lia|]. case_decide; [done|lia].
      * rewrite lookup_insert_ne by done.
        repeat case_decide; try done; lia.
    + destruct (IH {| pc := At (S j); pool := pool c; world := world c |}
                  (S j) eq_refl) as (Hpc' & Hw' & Hpool').
      { intros i Hi. apply Hitems. lia. }
      split; [rewrite Hpc'; f_equal; lia|]. split; [done|].
      intros i. rewrite Hpool'. cbn [pool].
      destruct (decide (i = j)) as [->|Hne].
      * rewrite Hit. case_decide; [lia|]. by case_decide.
      * repeat case_decide; try done; lia.
Qed.

(** X8: [Loop] scheduled alone. While the inbound channel delivers values,
    the loop after [n] receives has started one goroutine for each non-nil
    request, under the number of its receive, none for a nil pointer, and
    has left the world alone. When the next receive finds the channel
    closed, the loop exits, whatever fuel is left, with its two traces and
    the same goroutines started. *)
Theorem Loop_dispatches s w n :
  (∀ j, j < n → ∃ it, RecvReq s j = RecvItem it) →
  (pc (Loop n s (start w)) = At n ∧
   world (Loop n s (start w)) = w ∧
   ∀ j, pool (Loop n s (start w)) !! j = dispatched s n j)
  ∧ (RecvReq s n = RecvClosed →
     ∀ fuel, n < fuel →
       pc (Loop fuel s (start w)) = Exited ∧
       world (Loop fuel s (start w)) =
         Tracef (ID s) "loop exit"
           (Tracef (ID s) "loop stopped since session is closed" w) ∧
       ∀ j, pool (Loop fuel s (start w)) !! j = dispatched s n j).
Proof.
  intros Hitems.
  destruct (Loop_items s n (start w) 0 eq_refl) as (Hpc & Hw & Hpool).
  { intros i Hi. apply Hitems. lia. }
  assert (∀ j, pool (Loop n s (start w)) !! j = dispatched s n j) as Hdisp.
  { intros j. rewrite Hpool. unfold dispatched. cbn [start pool].
    rewrite lookup_empty.
    repeat case_decide; try lia; [|done].
    by destruct (RecvReq s j) as [[req|]| |]. }
  split; [done|].
  intros Hclosed fuel Hfuel.
  replace fuel with (n + S (fuel - S n)) by lia.
  rewrite Loop_plus. cbn [Loop]. unfold Loop_iter at 1 2 3.
  cbn [Nat.add] in Hpc. rewrite Hpc, Hclosed, !Loop_over by done.
  cbn [pc pool world]. by rewrite Hw.
Qed.

(** *** Under any schedule *)

Lemma start_sound s w : pool_sound s (start w).
Proof. intros j req. cbn [start pool]. by rewrite lookup_empty. Qed.

Lemma exec_sound r s ch c c' :
  pool_sound s c → exec r s ch c = Some c' → pool_sound s c'.
Proof.
  intros Hsound. destruct ch as [|k]; cbn [exec].
  - unfold Loop_iter. destruct (pc c) as [k| |] eqn:Hpc; [|done..].
    destruct (RecvReq s k) as [[req|]| |] eqn:Hrecv; intros [= <-];
      intros j req'; cbn [pc pool].
    + destruct (decide (j = k)) as [->|Hne].
      * rewrite lookup_insert_eq. intros [= <-]. split; [done|].
        intros ? [= <-]. lia.
      * rewrite lookup_insert_ne by done. intros Hj.
        destruct (Hsound j req' Hj) as [? Hlt]. split; [done|].
        intros ? [= <-]. specialize (Hlt k Hpc). lia.
    + intros Hj. destruct (Hsound j req' Hj) as [? Hlt]. split; [done|].
      intros ? [= <-]. specialize (Hlt k Hpc). lia.
    + intros Hj. destruct (Hsound j req' Hj) as [? Hlt]. by split.
  - unfold run_goroutine.
    destruct (pc c) as [i| |] eqn:Hpc; [| |done];
      (destruct (pool c !! k) as [req|]; [|done]);
      (destruct (goroutine r s req (world c)); [|done|]);
      intros [= <-]; intros j req'; cbn [pc pool];
      try (rewrite lookup_delete; case_decide; [done|]);
      intros Hj; destruct (Hsound j req' Hj) as [? Hlt];
      (split; [done|]); by rewrite ?Hpc in *.
Qed.

Lemma run_sound r s sched c c' :
  pool_sound s c → run r s sched c = Some c' → pool_sound s c'.
Proof.
  revert c. induction sched as [|ch sched IH]; intros c Hs; cbn [run].
  - by intros [= <-].
  - destruct (exec r s ch c) as [c1|] eqn:Hexec; [|done].
    apply IH. eauto using exec_sound.
Qed.

(** X9: under any schedule, every pending goroutine is the goroutine of a
    request that the loop did receive, at the receive it is numbered by,
    and a receive the loop has gone past: the router dispatches nothing that
    was not received. *)
Theorem pending_goroutines_sound r s sched w c :
  run r s sched (start w) = Some c →
  ∀ j req,
    pool c !! j = Some req →
    RecvReq s j = RecvItem (Some req) ∧ ∀ k, pc c = At k → j < k.
Proof. intros Hrun. exact (run_sound r s sched _ _ (start_sound s w) Hrun). Qed.

Lemma run_app r s sched1 sched2 c :
  run r s (sched1 ++ sched2) c =
  match run r s sched1 c with
  | Some c' => run r s sched2 c'
  | None => None
  end.
Proof.
  revert c. induction sched1 as [|ch sched1 IH]; intros c; [done|].
  cbn [app run]. destruct (exec r s ch c); [apply IH|done].
Qed.

Lemma exec_crashed r s ch c : pc c = Crashed → exec r s ch c = None.
Proof.
  intros Hpc. destruct ch; cbn [exec]; unfold Loop_iter, run_goroutine;
    by rewrite Hpc.
Qed.

Lemma run_spare r s kx sched c c' :
  spare kx c → run r s sched c = Some c' → spare kx c'.
Proof.
  revert c. induction sched as [|ch sched IH]; intros c Hspare; cbn [run].
  - by intros [= <-].
  - destruct (exec r s ch c) as [c1|] eqn:Hexec; [|done].
    apply IH.
    exact (proj2 (exec_park r s kx {| Req_ID := 0; Req_Data := [] |}
                    ch c c1 Hspare Hexec)).
Qed.

Lemma run_goroutine_spent r s k c c' :
  pool_sound s c →
  run_goroutine r s k c = Some c' →
  pc c' = Crashed ∨ spare k c'.
Proof.
  intros Hsound. unfold run_goroutine.
  destruct (pc c) as [i| |] eqn:Hpc; [| |done];
    (destruct (pool c !! k) as [req|] eqn:Hk; [|done]);
    (destruct (goroutine r s req (world c)); [|done|]);
    intros [= <-]; cbn [pc]; auto; right; split; cbn [pc pool];
    try apply lookup_delete_eq; try done.
  intros ? [= <-]. destruct (Hsound k req Hk) as [_ Hlt]. by apply Hlt.
Qed.

(** X10: no schedule runs the goroutine of a request twice: once it has
    run, whether it returned or panicked, a schedule that picks it again
    cannot be carried out: the handler of a request runs at most once. *)
Theorem goroutine_runs_once r s sched1 sched2 sched3 k w :
  run r s (sched1 ++ RunTask k :: sched2 ++ RunTask k :: sched3) (start w) = None.
Proof.
  rewrite run_app.
  destruct (run r s sched1 (start w)) as [c1|] eqn:Hrun1; [|done].
  pose proof (run_sound r s sched1 _ _ (start_sound s w) Hrun1) as Hsound.
  cbn [run exec].
  destruct (run_goroutine r s k c1) as [c2|] eqn:Hgo; [|done].
  rewrite run_app.
  destruct (run r s sched2 c2) as [c3|] eqn:Hrun2; [|done].
  cbn [run].
  destruct (run_goroutine_spent r s k c1 c2 Hsound Hgo) as [Hcrash|Hspare].
  - destruct sched2 as [|ch sched2].
    + injection Hrun2 as <-. by rewrite exec_crashed.
    + cbn [run] in Hrun2. by rewrite exec_crashed in Hrun2.
  - destruct (run_spare r s k sched2 c2 c3 Hspare Hrun2) as [Hnone _].
    cbn [exec]. unfold run_goroutine. rewrite Hnone. by destruct (pc c3).
Qed.

(** X15: the goroutine of a request does not recover: when the chain of a
    request panics, running its goroutine takes the whole process down, and
    after that no schedule makes a step: the loop receives nothing more and
    no other goroutine runs. *)
Theorem handler_panic_is_fatal r s k c req :
  pc c ≠ Crashed →
  pool c !! k = Some req →
  chain r s req (world c) = Panicked →
  ∃ c',
    run_goroutine r s k c = Some c' ∧
    pc c' = Crashed ∧
    ∀ ch sched, run r s (ch :: sched) c' = None.
Proof.
  intros Hpc Hk Hchain.
  assert (goroutine r s req (world c) = Panicked) as Hgo.
  { rewrite goroutine_handleReq, handleReq_chain. unfold M_then.
    by rewrite Hchain. }
  exists {| pc := Crashed; pool := pool c; world := world c |}.
  split; [|split; [done|]].
  - unfold run_goroutine. rewrite Hk, Hgo. by destruct (pc c).
  - intros ch sched. cbn [run]. by rewrite exec_crashed.
Qed.

(** *** A goroutine for each request *)



End LoopMore.

(** * More on the accept loop *)

Section AcceptMore.
Import easytcp.
Context {W RawConn Connection : Type} (NewConnection : RawConn → Connection).
Implicit Types (s : @Server W RawConn Connection) (st : @State W Connection).

Lemma boot_inv s w : accept_inv NewConnection s (boot w).
Proof. split; [|done]. intros j Hj. unfold turn in Hj; cbn in Hj. lia. Qed.

Lemma keepAccepting_step_inv s st st' :
  accept_inv NewConnection s st →
  keepAccepting_step NewConnection s st = Some st' →
  accept_inv NewConnection s st'.
Proof.
  unfold accept_inv, keepAccepting_step, turn. intros [Hbefore Hat].
  destruct (apc st) as [k|k conn|k err|k] eqn:Hpc; [| |done..].
  - destruct (listener s k) as [rawConn|err|] eqn:Hacc; [| |done].
    + destruct (call_hook _ _ _); [|done|]; intros [= <-]; cbn [apc]; eauto.
    + by intros [= <-].
  - case_decide as Hk; [|done]. destruct Hat as (rawConn & Hacc & ->).
    destruct (call_hook _ _ _); [|done|]; intros [= <-]; cbn [apc]; eauto.
    split; [|done]. intros j Hj.
    destruct (decide (j = k)) as [->|]; [eauto|]. apply Hbefore. lia.
Qed.

Lemma move_inv s mv st st' :
  accept_inv NewConnection s st →
  move NewConnection s mv st = Some st' →
  accept_inv NewConnection s st'.
Proof.
  destruct mv as [|k]; cbn [move]; [apply keepAccepting_step_inv|].
  intros Hinv. case_decide; [|done]. by intros [= <-].
Qed.

Lemma play_inv s mvs st st' :
  accept_inv NewConnection s st →
  play NewConnection s mvs st = Some st' →
  accept_inv NewConnection s st'.
Proof.
  revert st. induction mvs as [|mv mvs IH]; intros st Hinv; cbn [play].
  - by intros [= <-].
  - destruct (move NewConnection s mv st) as [st1|] eqn:Hmv; [|done].
    apply IH. eauto using move_inv.
Qed.

(** X11: [keepAccepting] returns only when a call of [Accept] fails, with the
    error of that call as it is; every call before it gave a connection,
    whose closed signal has fired; and a failing [Accept] makes the loop
    return at once, with no hook run. After that the loop does not move. *)
Theorem keepAccepting_returns s :
  (∀ mvs w st k err,
     play NewConnection s mvs (boot w) = Some st →
     apc st = Returned k err →
     listener s k = AcceptFailed err
     ∧ (∀ j, j < k → (∃ rawConn, listener s j = Accepted rawConn) ∧ j ∈ fired st)
     ∧ keepAccepting_step NewConnection s st = None)
  ∧ (∀ st k err,
       apc st = Accepting k →
       listener s k = AcceptFailed err →
       keepAccepting_step NewConnection s st =
       Some {| apc := Returned k err; started := started st;
               fired := fired st; aworld := aworld st |}).
Proof.
  split.
  - intros mvs w st k err Hplay Hpc.
    destruct (play_inv s mvs _ _ (boot_inv s w) Hplay) as [Hbefore Hat].
    unfold turn in Hbefore. rewrite Hpc in Hbefore, Hat.
    split; [done|]. split.
    + intros j Hj. split; [by apply Hbefore|].
      apply (play_waited NewConnection s mvs (boot w) st); [|done|].
      * intros i Hi. unfold turn in Hi; cbn in Hi. lia.
      * unfold turn. by rewrite Hpc.
    + unfold keepAccepting_step. by rewrite Hpc.
  - intros st k err Hpc Hacc. unfold keepAccepting_step. by rewrite Hpc, Hacc.
Qed.

Lemma play_app s mvs1 mvs2 st :
  play NewConnection s (mvs1 ++ mvs2) st =
  match play NewConnection s mvs1 st with
  | Some st' => play NewConnection s mvs2 st'
  | None => None
  end.
Proof.
  revert st. induction mvs1 as [|mv mvs1 IH]; intros st; [done|].
  cbn [app play]. destruct (move NewConnection s mv st); [apply IH|done].
Qed.

(** X13: with hooks that return, and [n] clients that come and go one after
    the other, the accept loop is back at [Accept] after them and has run,
    for each connection in turn, the connect hook and then the disconnect
    hook of that connection, before the connect hook of the next one. A nil
    hook runs nothing. *)
Theorem hooks_in_turn s (f g : Connection → W → W) (raws : nat → RawConn) n w :
  (∀ conn w', call_hook (onConnectedFn s) conn w' = Done tt (f conn w')) →
  (∀ conn w', call_hook (onDisconnectFn s) conn w' = Done tt (g conn w')) →
  (∀ j, j < n → listener s j = Accepted (raws j)) →
  ∃ st,
    play NewConnection s (rounds n) (boot w) = Some st ∧
    apc st = Accepting n ∧
    aworld st =
      foldl (λ w' j, g (NewConnection (raws j)) (f (NewConnection (raws j)) w'))
        w (seq 0 n).
Proof.
  intros Hcon Hdis. induction n as [|n IH]; intros Hacc.
  - by exists (boot w).
  - destruct IH as (st & Hplay & Hpc & Hw); [intros j Hj; apply Hacc; lia|].
    set (conn := NewConnection (raws n)).
    set (st1 := {| apc := AwaitClosed n conn;
                   started := started st ++ [KeepReading conn; KeepWriting conn];
                   fired := fired st; aworld := f conn (aworld st) |}).
    set (st2 := {| apc := AwaitClosed n conn; started := started st1;
                   fired := {[n]} ∪ fired st; aworld := f conn (aworld st) |}).
    set (st3 := {| apc := Accepting (S n); started := started st1;
                   fired := {[n]} ∪ fired st;
                   aworld := g conn (f conn (aworld st)) |}).
    assert (move NewConnection s ServerMoves st = Some st1) as Hmv1.
    { cbn [move]. unfold keepAccepting_step.
      rewrite Hpc, (Hacc n) by lia. by rewrite Hcon. }
    assert (move NewConnection s (ClosedFires n) st1 = Some st2) as Hmv2.
    { cbn [move]. rewrite decide_True; [done|]. unfold accepted; cbn. lia. }
    assert (move NewConnection s ServerMoves st2 = Some st3) as Hmv3.
    { cbn [move]. unfold keepAccepting_step. cbn [apc st2 fired aworld].
      rewrite decide_True by set_solver. by rewrite Hdis. }
    exists st3. cbn [rounds]. rewrite play_app, Hplay.
    cbn [play]. rewrite Hmv1, Hmv2, Hmv3.
    split; [done|]. split; [done|]. cbn [st3 aworld].
    by rewrite seq_S, foldl_app, Hw.
Qed.

(** X14: the errors of [Serve]. When [net.Listen] fails, [Serve] returns its
    error behind the words "listen tcp failed: ", and accepts nothing.
    Otherwise it runs the accept loop on the new listener, with the hooks
    the server has, and returns only when a call of [Accept] fails, with the
    error of that call as it is, every call before it having given a
    connection. The listener the server held before is not used. *)
Theorem Serve_errors (Listen : string → error + (nat → AcceptResult RawConn)) s w :
  (∀ err,
     Serve Listen s w = inl err →
     ∃ e, Listen (Addr s +:+ ":" +:+ pretty (Port s)) = inl e ∧
          err = "listen tcp failed: " +:+ e)
  ∧ (∀ s' st0 mvs st err,
       Serve Listen s w = inr (s', st0) →
       play NewConnection s' mvs st0 = Some st →
       returned st = Some err →
       Listen (Addr s +:+ ":" +:+ pretty (Port s)) = inr (listener s') ∧
       onConnectedFn s' = onConnectedFn s ∧
       onDisconnectFn s' = onDisconnectFn s ∧
       ∃ k, listener s' k = AcceptFailed err ∧
            ∀ j, j < k → ∃ rawConn, listener s' j = Accepted rawConn).
Proof.
  unfold Serve. split.
  - intros err. destruct (Listen _) as [e|lis]; [|done].
    intros [= <-]. eauto.
  - intros s' st0 mvs st err.
    destruct (Listen _) as [e|lis]; [done|]. intros [= <- <-] Hplay Hret.
    split; [done|]. split; [done|]. split; [done|].
    destruct (play_inv _ mvs _ _ (boot_inv _ w) Hplay) as [Hbefore Hat].
    unfold returned in Hret. unfold turn in Hbefore.
    destruct (apc st) as [k|k conn|k err'|k]; try done.
    injection Hret as ->. eauto.
Qed.

End AcceptMore.

(** * The global middlewares as a slice *)

Section SliceProps.
Import slices.
Context {W Session : Type} `{!SessionOps W Session} `{!Logger W}.
Variable growcap : nat → nat → nat.
Implicit Types (r : @Shared W Session) (sl : Slice) (s : Session) (req : Request).
Implicit Types (h : list (list (@MiddlewareFunc W Session))).
Implicit Types (arr vs : list (@MiddlewareFunc W Session)).

Lemma length_store_at arr i vs :
  i + length vs ≤ length arr → length (store_at arr i vs) = length arr.
Proof.
  intros Hle. unfold store_at.
  rewrite !length_app, length_take, length_drop. lia.
Qed.

Lemma take_store_at arr i vs :
  i ≤ length arr → take i (store_at arr i vs) = take i arr.
Proof.
  intros Hle. unfold store_at. apply take_app_length'.
  by rewrite length_take_le.
Qed.

Lemma take_store_at_more arr i vs :
  i ≤ length arr → take (i + length vs) (store_at arr i vs) = take i arr ++ vs.
Proof.
  intros Hle. unfold store_at. rewrite app_assoc. apply take_app_length'.
  by rewrite length_app, length_take_le.
Qed.

Lemma store_at_nothing arr i : store_at arr i [] = arr.
Proof. unfold store_at. cbn [length app]. rewrite Nat.add_0_r. apply take_drop. Qed.

Lemma elems_extend h ext sl :
  addr sl < length h → elems (h ++ ext) sl = elems h sl.
Proof. intros Hlt. unfold elems, cells. by rewrite lookup_app_l. Qed.

(** What [append] gives, and what it leaves: the new slice shows the old
    values and then the new ones; the old slice shows what it showed; its
    array is still there, of the same size. *)
Lemma append_spec sl vs h arr :
  h !! addr sl = Some arr → length arr = cap sl → len sl ≤ cap sl →
  elems (append growcap sl vs h).2 (append growcap sl vs h).1 = elems h sl ++ vs
  ∧ elems (append growcap sl vs h).2 sl = elems h sl
  ∧ ∃ arr', (append growcap sl vs h).2 !! addr sl = Some arr' ∧
            length arr' = cap sl.
Proof.
  intros Harr Hlen Hcap. pose proof (lookup_lt_Some _ _ _ Harr) as Hin.
  assert (cells h sl = arr) as Hcells by (unfold cells; by rewrite Harr).
  unfold append. case_decide as Hfit; cbn [fst snd].
  - rewrite Hcells. unfold elems, cells; cbn [addr len].
    rewrite list_lookup_insert_eq by done. rewrite Harr.
    cbn [default from_option]. unfold id.
    split; [apply take_store_at_more; lia|].
    split; [apply take_store_at; lia|].
    eexists. split; [done|]. rewrite length_store_at; lia.
  - split; [|split].
    + unfold elems at 1, cells; cbn [addr len].
      rewrite list_lookup_middle by done. cbn [default from_option]. unfold id.
      rewrite app_assoc. apply take_app_length'.
      unfold elems. rewrite Hcells, length_app, length_take_le; lia.
    + by apply elems_extend.
    + exists arr. split; [by apply lookup_app_l_Some|done].
Qed.

Lemma handler_of_listed r id :
  match handlers r !! id with Some v => v | None => None end =
  handler_of (listed r) id.
Proof. done. Qed.

Lemma push_well_formed r mm :
  (∀ old needed, needed ≤ growcap old needed) →
  well_formed r → well_formed (push growcap r mm).
Proof.
  intros Hgrow (arr & Harr & Hlen & Hcap). unfold push.
  destruct mm as [f|]; [|by exists arr].
  unfold append. case_decide as Hfit; unfold well_formed;
    cbn [heap globals addr len cap length].
  - eexists. split; [apply list_lookup_insert_eq; by eapply lookup_lt_Some|].
    unfold cells. rewrite Harr. cbn [default from_option]. unfold id.
    cbn [length] in Hfit.
    split; [rewrite length_store_at; cbn [length]; lia|lia].
  - eexists. split; [by apply list_lookup_middle|].
    pose proof (Hgrow (cap (globals r)) (len (globals r) + 1)).
    cbn [length] in *.
    unfold elems, cells. rewrite Harr. cbn [default from_option]. unfold id.
    rewrite !length_app, length_take_le, length_replicate by lia.
    cbn [length]. lia.
Qed.

(** A router built through the API is well formed, when the runtime gives a
    grown array the room that is needed. *)
Lemma built_well_formed r :
  (∀ old needed, needed ≤ growcap old needed) →
  built growcap r → well_formed r.
Proof.
  intros Hgrow. induction 1 as [|id h m r _ IH|m r _ IH].
  - exists []. repeat split; cbn; lia.
  - exact IH.
  - unfold RegisterMiddleware. destruct m as [|mm m]; [done|].
    revert IH. generalize (mm :: m). clear mm m. intros m. revert r.
    induction m as [|mm m IHm]; intros r Hwf; [done|].
    cbn [foldl]. apply IHm. by apply push_well_formed.
Qed.

(** X16: a dispatch that no other dispatch overtakes, [handleReq] with
    nothing between its append and its reads, does what the router of lists
    does, whatever the capacity of the slice: it runs the global middlewares
    and then the middlewares of the id of the request around the handler. It
    leaves the lists of the router as they were, the append having written
    only after the cells the slice of the router shows. *)
Theorem handleReq_alone r s req w :
  well_formed r →
  (handleReq growcap r s req).2 w = router.handleReq (listed r) s req w
  ∧ listed (handleReq growcap r s req).1 = listed r
  ∧ well_formed (handleReq growcap r s req).1.
Proof.
  intros (arr & Harr & Hlen & Hcap).
  unfold handleReq, gather. rewrite handler_of_listed.
  destruct (routes r !! Req_ID req) as [v|] eqn:Hroute.
  - destruct (append_spec (globals r) v (heap r) arr Harr Hlen Hcap)
      as (Hnew & Hold & arr' & Harr' & Hlen').
    destruct (append growcap (globals r) v (heap r)) as [middles h'] eqn:Happ.
    cbn [fst snd] in *. split; [|split].
    + unfold finish, router.handleReq; cbn [heap].
      rewrite Hnew. unfold middles_of; cbn [listed middlewaresMapper globalMiddlewares].
      by rewrite Hroute.
    + unfold listed; cbn [handlers routes globals heap]. by rewrite Hold.
    + exists arr'. by cbn [heap globals].
  - cbn [fst snd]. split; [|split; [done|by exists arr]].
    unfold finish, router.handleReq, middles_of;
      cbn [listed middlewaresMapper globalMiddlewares].
    by rewrite Hroute.
Qed.

(** *** A slice with no spare cell *)

Lemma boot_settled r0 pool w : settled r0 (boot r0 pool w).
Proof.
  split; [done|]. split; [done|]. split; [done|].
  split; [exists []; by rewrite app_nil_r|].
  intros k req handler middles. cbn [boot tasks].
  by intros (req' & Heq & _)%lookup_fmap_Some.
Qed.

Lemma boot_tracked r0 pool w : tracked pool (boot r0 pool w).
Proof.
  intros k t. cbn [boot tasks]. intros (req & <- & Hk)%lookup_fmap_Some. done.
Qed.

Lemma step_tracked s pool p m m' :
  tracked pool m → step growcap s p m = Some m' → tracked pool m'.
Proof.
  intros Htr. unfold step. destruct (down m); [done|]. destruct p as [k|k].
  - destruct (tasks m !! k) as [[req|req hd mid]|] eqn:Hk; [|done..].
    destruct (gather growcap (router m) (Req_ID req)) as [[hd mid] r'].
    intros [= <-] k' t; cbn [tasks]. rewrite lookup_insert.
    case_decide as Hkk; [|apply Htr]. subst k'. intros [= <-].
    apply (Htr k _ Hk).
  - destruct (tasks m !! k) as [[req|req hd mid]|] eqn:Hk; [done| |done].
    destruct (traced s _ _); [|done|]; intros [= <-] k' t; cbn [tasks].
    + rewrite lookup_delete. case_decide; [done|apply Htr].
    + apply Htr.
Qed.

Lemma step_settled s r0 p m m' :
  well_formed r0 →
  len (globals r0) = cap (globals r0) →
  settled r0 m → step growcap s p m = Some m' → settled r0 m'.
Proof.
  intros (arr & Harr & Hlen & _) Hfull (Hh & Hr & Hg & [ext Hext] & Htasks).
  pose proof (lookup_lt_Some _ _ _ Harr) as Hin.
  assert (cells (heap (router m)) (globals r0) = arr) as Hcells.
  { unfold cells. rewrite Hext. by rewrite (lookup_app_l_Some _ _ _ _ Harr). }
  assert (elems (heap (router m)) (globals r0) = elems (heap r0) (globals r0))
    as Hsame by (rewrite Hext; by apply elems_extend).
  unfold step. destruct (down m); [done|]. destruct p as [k|k].
  - destruct (tasks m !! k) as [[req|req hd mid]|] eqn:Hk; [|done..].
    unfold gather. rewrite Hh, Hr, Hg.
    destruct (routes r0 !! Req_ID req) as [v|] eqn:Hroute.
    + unfold append. case_decide as Hfit.
      * assert (v = []) as -> by (destruct v; [done|cbn [length] in Hfit; lia]).
        rewrite Hcells, store_at_nothing.
        rewrite list_insert_id by (rewrite Hext; by apply lookup_app_l_Some).
        intros [= <-]; unfold settled; cbn [router tasks handlers routes globals heap].
        split; [done|]. split; [done|]. split; [done|]. split; [by exists ext|].
        intros k' req' hd' mid'. rewrite lookup_insert.
        case_decide as Hkk; [|apply Htasks]. intros [= <- <- <-].
        split; [done|]. cbn [addr]. split; [rewrite Hext, length_app; lia|].
        unfold elems, cells; cbn [len addr].
        rewrite Hext, (lookup_app_l_Some _ _ _ _ Harr), Nat.add_0_r.
        unfold middles_of; cbn [listed middlewaresMapper globalMiddlewares].
        rewrite Hroute, app_nil_r. unfold elems, cells. by rewrite Harr.
      * intros [= <-]; unfold settled; cbn [router tasks handlers routes globals heap].
        split; [done|]. split; [done|]. split; [done|].
        split; [eexists; rewrite Hext, <- app_assoc; done|].
        intros k' req' hd' mid'. rewrite lookup_insert.
        case_decide as Hkk.
        -- intros [= <- <- <-]. split; [done|]. cbn [addr].
           split; [rewrite length_app; cbn [length]; lia|].
           unfold elems at 1, cells; cbn [addr len].
           rewrite list_lookup_middle by done. cbn [default from_option].
           unfold id. rewrite app_assoc, Hsame.
           unfold middles_of; cbn [listed middlewaresMapper globalMiddlewares].
           rewrite Hroute. apply take_app_length'.
           unfold elems, cells. rewrite Harr. cbn [default from_option].
           unfold id. rewrite length_app, length_take_le; lia.
        -- intros Hk'. destruct (Htasks _ _ _ _ Hk') as (? & Hlt & Hel).
           split; [done|]. split; [rewrite length_app; lia|].
           by rewrite elems_extend.
    + intros [= <-]; unfold settled; cbn [router tasks].
      split; [done|]. split; [done|]. split; [done|]. split; [by exists ext|].
      intros k' req' hd' mid'. rewrite lookup_insert.
      case_decide as Hkk; [|apply Htasks]. intros [= <- <- <-].
      split; [done|]. split; [rewrite Hext, length_app; lia|].
      rewrite Hsame. unfold middles_of;
        cbn [listed middlewaresMapper globalMiddlewares]. by rewrite Hroute.
  - destruct (tasks m !! k) as [[req|req hd mid]|] eqn:Hk; [done| |done].
    destruct (traced s _ _); [|done|]; intros [= <-]; unfold settled; cbn [router tasks];
      (split; [done|]); (split; [done|]); (split; [done|]);
      (split; [by exists ext|]); intros k' req' hd' mid'.
    + rewrite lookup_delete. case_decide; [done|apply Htasks].
    + apply Htasks.
Qed.

Lemma steps_settled s r0 pool ps m m' :
  well_formed r0 →
  len (globals r0) = cap (globals r0) →
  settled r0 m ∧ tracked pool m →
  steps growcap s ps m = Some m' →
  settled r0 m' ∧ tracked pool m'.
Proof.
  intros Hwf Hfull. revert m.
  induction ps as [|p ps IH]; intros m [Hs Ht]; cbn [steps].
  - by intros [= <-].
  - destruct (step growcap s p m) as [m1|] eqn:Hstep; [|done].
    apply IH. eauto using step_settled, step_tracked.
Qed.

(** X17: when the slice of the global middlewares has no spare cell (its
    length is its capacity), the goroutines of [Loop] do not disturb one
    another, however their appends and their reads are interleaved: every
    append takes an array of its own. A goroutine that has gathered its
    middlewares is the one of the request received under its number, and the
    rest of its [handleReq] does what the router of lists does for that
    request. *)
Theorem full_slice_no_interference r0 s pool w ps m k req handler middles :
  well_formed r0 →
  len (globals r0) = cap (globals r0) →
  steps growcap s ps (boot r0 pool w) = Some m →
  tasks m !! k = Some (Gathered req handler middles) →
  pool !! k = Some req
  ∧ ∀ w', finish (router m) handler middles s req w' =
          router.handleReq (listed r0) s req w'.
Proof.
  intros Hwf Hfull Hsteps Hk.
  destruct (steps_settled s r0 pool ps _ m Hwf Hfull
              (conj (boot_settled r0 pool w) (boot_tracked r0 pool w)) Hsteps)
    as [(_ & _ & _ & _ & Htasks) Htr].
  split; [exact (Htr k _ Hk)|].
  destruct (Htasks _ _ _ _ Hk) as (-> & _ & Hel).
  intros w'. unfold finish, router.handleReq. by rewrite Hel.
Qed.

End SliceProps.

(** * More examples on the mock session *)

Section MoreExamples.
Import mock.

(** Registrations for ids [1] and [3], in both orders. *)
Lemma Register_commutes_witness :
  1%N ≠ 3%N
  ∧ Register 1 h_pong [mark "a"] (Register 3 h_fail [] New) =
    Register 3 h_fail [] (Register 1 h_pong [mark "a"] New).
Proof.
  assert (1%N ≠ 3%N) as Hne by discriminate.
  split; [exact Hne|].
  exact (proj1 (Register_commutes (W:=World) (Session:=Session))
           1%N 3%N h_pong h_fail [mark "a"] [] New Hne).
Defined.

(** The handler of id [1] answers, the session takes the answer. *)
Lemma response_forwarded_witness :
  chain plain_router (sess [] true) (ping 1) fresh
    = Done (Some pong, None) (tick "H" fresh)
  ∧ SendResp (sess [] true) pong (tick "H" fresh)
    = Done None {| outbox := [pong]; shut := false; logs := []; marks := ["H"] |}
  ∧ handleReq plain_router (sess [] true) (ping 1) fresh
    = Done None {| outbox := [pong]; shut := false; logs := []; marks := ["H"] |}.
Proof.
  assert (chain plain_router (sess [] true) (ping 1) fresh
          = Done (Some pong, None) (tick "H" fresh)) as Hchain by reflexivity.
  assert (SendResp (sess [] true) pong (tick "H" fresh)
          = Done None {| outbox := [pong]; shut := false; logs := [];
                         marks := ["H"] |}) as Hsend by reflexivity.
  split; [exact Hchain|]. split; [exact Hsend|].
  exact (proj1 (response_forwarded _ _ _ _ _ _ _ Hchain Hsend)).
Defined.

(** The marker middlewares of [marked_router] do not panic, and neither does
    the wrap of the chain of id [1]. *)
Lemma wrapHandlers_nil_panic_witness :
  reachable marked_router
  ∧ (∀ f, Some f ∈ globalMiddlewares marked_router ++ route_middlewares marked_router 1 →
          ∀ next w', f next w' ≠ Panicked)
  ∧ wrapHandlers (handler_of marked_router 1) (middles_of marked_router 1) fresh
    ≠ Panicked.
Proof.
  assert (reachable marked_router) as Hreach
    by apply reach_Register, reach_RegisterMiddleware, reach_New.
  assert (∀ f, Some f ∈ globalMiddlewares marked_router
                          ++ route_middlewares marked_router 1 →
               ∀ next w', f next w' ≠ Panicked) as Hsafe.
  { intros f Hin next w'.
    change (Some f ∈ [mark "G1"; mark "G2"; mark "R1"; mark "R2"]) in Hin.
    repeat (apply elem_of_cons in Hin as [Hin|Hin];
            [injection Hin as ->; discriminate|]).
    by apply elem_of_nil in Hin. }
  split; [exact Hreach|]. split; [exact Hsafe|].
  exact (proj2 (wrapHandlers_nil_panic (W:=World) (Session:=Session))
           marked_router 1%N fresh Hreach Hsafe).
Defined.

(** The loop alone on a session that delivers two requests and closes. *)
Lemma Loop_dispatches_witness :
  (∀ j, j < 2 → ∃ it, RecvReq two_requests j = RecvItem it)
  ∧ RecvReq two_requests 2 = RecvClosed
  ∧ pool (Loop 2 two_requests (start fresh)) !! 1 = Some (ping 1)
  ∧ pc (Loop 7 two_requests (start fresh)) = Exited.
Proof.
  assert (∀ j, j < 2 → ∃ it, RecvReq two_requests j = RecvItem it) as Hitems.
  { intros [|[|j]] Hj; [eexists; reflexivity..|lia]. }
  assert (RecvReq two_requests 2 = RecvClosed) as Hclosed by reflexivity.
  destruct (Loop_dispatches two_requests fresh 2 Hitems)
    as ((_ & _ & Hpool) & Hexit).
  split; [exact Hitems|]. split; [exact Hclosed|]. split.
  - exact (Hpool 1).
  - assert (2 < 7) as Hfuel by lia. exact (proj1 (Hexit Hclosed 7 Hfuel)).
Defined.

(** The goroutines pending after the two receives of [two_requests]. *)
Lemma pending_goroutines_sound_witness :
  run plain_router two_requests [TickLoop; TickLoop] (start fresh) = Some both_pending
  ∧ pool both_pending !! 1 = Some (ping 1)
  ∧ RecvReq two_requests 1 = RecvItem (Some (ping 1)).
Proof.
  assert (run plain_router two_requests [TickLoop; TickLoop] (start fresh)
          = Some both_pending) as Hrun by reflexivity.
  assert (pool both_pending !! 1 = Some (ping 1)) as Hpool by reflexivity.
  split; [exact Hrun|]. split; [exact Hpool|].
  exact (proj1 (pending_goroutines_sound _ _ _ _ _ Hrun 1 (ping 1) Hpool)).
Defined.

(** One client served, then [Accept] fails. *)
Lemma keepAccepting_returns_witness :
  easytcp.play (λ rawConn : nat, rawConn) failing_server
    [easytcp.ServerMoves; easytcp.ClosedFires 0; easytcp.ServerMoves;
     easytcp.ServerMoves] (easytcp.boot fresh)
  = Some {| easytcp.apc := easytcp.Returned 1 "too many open files";
            easytcp.started := [easytcp.KeepReading 7; easytcp.KeepWriting 7];
            easytcp.fired := {[0]} ∪ ∅;
            easytcp.aworld := tick "connected" fresh |}
  ∧ easytcp.listener failing_server 1 = easytcp.AcceptFailed "too many open files".
Proof.
  assert (easytcp.play (λ rawConn : nat, rawConn) failing_server
            [easytcp.ServerMoves; easytcp.ClosedFires 0; easytcp.ServerMoves;
             easytcp.ServerMoves] (easytcp.boot fresh)
          = Some {| easytcp.apc := easytcp.Returned 1 "too many open files";
                    easytcp.started := [easytcp.KeepReading 7; easytcp.KeepWriting 7];
                    easytcp.fired := {[0]} ∪ ∅;
                    easytcp.aworld := tick "connected" fresh |}) as Hplay
    by reflexivity.
  split; [exact Hplay|].
  exact (proj1 (proj1 (keepAccepting_returns (λ rawConn : nat, rawConn) failing_server)
                  _ _ _ 1 "too many open files" Hplay eq_refl)).
Defined.

(** Two clients of [busy_server], one after the other. *)
Lemma hooks_in_turn_witness :
  (∀ conn w', easytcp.call_hook (easytcp.onConnectedFn busy_server) conn w'
              = Done tt (tick "connected" w'))
  ∧ (∀ conn w', easytcp.call_hook (easytcp.onDisconnectFn busy_server) conn w'
                = Done tt (tick "disconnected" w'))
  ∧ (∀ j, j < 2 → easytcp.listener busy_server j = easytcp.Accepted j)
  ∧ ∃ st,
      easytcp.play (λ rawConn : nat, rawConn) busy_server (easytcp.rounds 2)
        (easytcp.boot fresh) = Some st
      ∧ easytcp.apc st = easytcp.Accepting 2
      ∧ easytcp.aworld st =
        tick "disconnected" (tick "connected"
          (tick "disconnected" (tick "connected" fresh))).
Proof.
  assert (∀ (conn : nat) w',
            easytcp.call_hook (easytcp.onConnectedFn busy_server) conn w'
            = Done tt (tick "connected" w')) as Hcon by reflexivity.
  assert (∀ (conn : nat) w',
            easytcp.call_hook (easytcp.onDisconnectFn busy_server) conn w'
            = Done tt (tick "disconnected" w')) as Hdis by reflexivity.
  assert (∀ j, j < 2 → easytcp.listener busy_server j = easytcp.Accepted j)
    as Hacc by reflexivity.
  split; [exact Hcon|]. split; [exact Hdis|]. split; [exact Hacc|].
  exact (hooks_in_turn (λ rawConn : nat, rawConn) busy_server
           (λ _, tick "connected") (λ _, tick "disconnected") (λ j, j)
           2 fresh Hcon Hdis Hacc).
Defined.

(** [Serve] when the address cannot be listened on, and when it can. *)
Lemma Serve_errors_witness :
  (easytcp.Serve (listen_on "0.0.0.0:80") failing_server fresh
     = inl "listen tcp failed: address not available"
   ∧ listen_on "0.0.0.0:80" "127.0.0.1:8765" = inl "address not available")
  ∧ (easytcp.play (λ rawConn : nat, rawConn) failing_server
       [easytcp.ServerMoves; easytcp.ClosedFires 0; easytcp.ServerMoves;
        easytcp.ServerMoves] (easytcp.boot fresh)
     = Some {| easytcp.apc := easytcp.Returned 1 "too many open files";
               easytcp.started := [easytcp.KeepReading 7; easytcp.KeepWriting 7];
               easytcp.fired := {[0]} ∪ ∅;
               easytcp.aworld := tick "connected" fresh |}
     ∧ ∃ k, failing_listener k = easytcp.AcceptFailed "too many open files"
            ∧ ∀ j, j < k → ∃ rawConn, failing_listener j = easytcp.Accepted rawConn).
Proof.
  destruct (Serve_errors (λ rawConn : nat, rawConn) (listen_on "0.0.0.0:80")
              failing_server fresh) as [Hlisten _].
  destruct (Serve_errors (λ rawConn : nat, rawConn) (listen_on "127.0.0.1:8765")
              failing_server fresh) as [_ Haccept].
  assert (easytcp.Serve (listen_on "0.0.0.0:80") failing_server fresh
          = inl "listen tcp failed: address not available") as Hfail by reflexivity.
  assert (easytcp.Serve (listen_on "127.0.0.1:8765") failing_server fresh
          = inr (failing_server, easytcp.boot fresh)) as Hok by reflexivity.
  assert (easytcp.play (λ rawConn : nat, rawConn) failing_server
            [easytcp.ServerMoves; easytcp.ClosedFires 0; easytcp.ServerMoves;
             easytcp.ServerMoves] (easytcp.boot fresh)
          = Some {| easytcp.apc := easytcp.Returned 1 "too many open files";
                    easytcp.started := [easytcp.KeepReading 7; easytcp.KeepWriting 7];
                    easytcp.fired := {[0]} ∪ ∅;
                    easytcp.aworld := tick "connected" fresh |}) as Hplay
    by reflexivity.
  split.
  - split; [exact Hfail|].
    destruct (Hlisten _ Hfail) as (e & He & _). reflexivity.
  - split; [exact Hplay|].
    exact (proj2 (proj2 (proj2 (Haccept _ _ _ _ _ Hok Hplay eq_refl)))).
Defined.

(** The handler of id [6] panics. *)
Lemma handler_panic_is_fatal_witness :
  pc panic_pending ≠ Crashed
  ∧ pool panic_pending !! 0 = Some (ping 6)
  ∧ chain panicky_router (sess [] true) (ping 6) (world panic_pending) = Panicked
  ∧ ∃ c', run_goroutine panicky_router (sess [] true) 0 panic_pending = Some c'
          ∧ pc c' = Crashed.
Proof.
  assert (pc panic_pending ≠ Crashed) as Hpc by discriminate.
  assert (pool panic_pending !! 0 = Some (ping 6)) as Hpool by reflexivity.
  assert (chain panicky_router (sess [] true) (ping 6) (world panic_pending)
          = Panicked) as Hchain by reflexivity.
  split; [exact Hpc|]. split; [exact Hpool|]. split; [exact Hchain|].
  destruct (handler_panic_is_fatal panicky_router (sess [] true) 0 panic_pending
              (ping 6) Hpc Hpool Hchain) as (c' & Hrun & Hcrash & _).
  exists c'. split; [exact Hrun|exact Hcrash].
Defined.


(** C2, where the code fails it. The router has five global middlewares,
    appended one at a time, so that their slice shows 5 cells of an array of
    8; id [1] has the middlewares [A1], [A2], [A3], id [2] has [B1], [B2].
    The nested wrap of the global middlewares around the middlewares of id
    [1] around its handler leaves the markers [G1] to [G5], [A1], [A2], [A3],
    [H1]. The code, when the goroutine of a request for id [2] makes its
    append between the append and the reads of the goroutine of a request
    for id [1], runs for that request [G1] to [G5], [B1], [B2], [A3], [H1]:
    both appends wrote to the same spare cells of the array of the global
    middlewares. *)
Theorem shared_append_mixes_routes :
  slices.globals racy_router = {| slices.addr := 4; slices.len := 5; slices.cap := 8 |}
  ∧ globalMiddlewares (slices.listed racy_router) =
      [mark "G1"; mark "G2"; mark "G3"; mark "G4"; mark "G5"]
  ∧ route_middlewares (slices.listed racy_router) 1 =
      [mark "A1"; mark "A2"; mark "A3"]
  ∧ (wrapped ⇐ nest (globalMiddlewares (slices.listed racy_router) ++
                      route_middlewares (slices.listed racy_router) 1)
                     (base_handler (slices.listed racy_router) 1) ;;
     res ⇐ call_handler wrapped (sess [] true) (ping 1) ;;
     reply (sess [] true) res) fresh =
    Done None {| outbox := [pong]; shut := false; logs := [];
                 marks := ["G1"; "G2"; "G3"; "G4"; "G5"; "A1"; "A2"; "A3"; "H1"] |}
  ∧ slices.mworld <$>
      slices.steps slices.doubling (sess [] true)
        [slices.Gather 0; slices.Gather 1; slices.Finish 0]
        (slices.boot racy_router two_dispatches fresh) =
    Some {| outbox := [pong]; shut := false; logs := [];
            marks := ["G1"; "G2"; "G3"; "G4"; "G5"; "B1"; "B2"; "A3"; "H1"] |}.
Proof. repeat split; reflexivity. Qed.

(** A dispatch on its own on the router with spare cells. *)
Lemma handleReq_alone_witness :
  slices.well_formed racy_router
  ∧ (slices.handleReq slices.doubling racy_router (sess [] true) (ping 1)).2 fresh
    = handleReq (slices.listed racy_router) (sess [] true) (ping 1) fresh.
Proof.
  assert (slices.well_formed racy_router) as Hwf.
  { eexists. split; [reflexivity|]. split; [reflexivity|]. change (5 ≤ 8). lia. }
  split; [exact Hwf|].
  exact (proj1 (handleReq_alone slices.doubling racy_router (sess [] true)
                  (ping 1) fresh Hwf)).
Defined.

(** Two dispatches, the second overtaking the first, on the router whose
    slice of global middlewares is full. *)
Lemma full_slice_no_interference_witness :
  slices.well_formed full_router
  ∧ slices.len (slices.globals full_router) = slices.cap (slices.globals full_router)
  ∧ ∃ m handler middles,
      slices.steps slices.doubling (sess [] true) [slices.Gather 0; slices.Gather 1]
        (slices.boot full_router two_dispatches fresh) = Some m
      ∧ slices.tasks m !! 0 = Some (slices.Gathered (ping 1) handler middles)
      ∧ slices.finish (slices.router m) handler middles (sess [] true) (ping 1) fresh
        = handleReq (slices.listed full_router) (sess [] true) (ping 1) fresh.
Proof.
  assert (slices.well_formed full_router) as Hwf.
  { eexists. split; [reflexivity|]. split; [reflexivity|]. change (4 ≤ 4). lia. }
  assert (slices.len (slices.globals full_router)
          = slices.cap (slices.globals full_router)) as Hfull by reflexivity.
  split; [exact Hwf|]. split; [exact Hfull|].
  destruct (slices.steps slices.doubling (sess [] true)
              [slices.Gather 0; slices.Gather 1]
              (slices.boot full_router two_dispatches fresh)) as [m|] eqn:Hsteps;
    [|discriminate Hsteps].
  destruct (slices.tasks m !! 0) as [[req|req handler middles]|] eqn:Hk;
    [| |].
  - exfalso. vm_compute in Hsteps. injection Hsteps as <-. discriminate Hk.
  - destruct (full_slice_no_interference slices.doubling full_router (sess [] true)
                two_dispatches fresh _ m 0 req handler middles Hwf Hfull Hsteps Hk)
      as [Hreq Hfin].
    injection Hreq as <-.
    exists m, handler, middles. split; [reflexivity|]. split; [exact Hk|].
    exact (Hfin fresh).
  - exfalso. vm_compute in Hsteps. injection Hsteps as <-. discriminate Hk.
Defined.

End MoreExamples.
